(** * ThreadSafeLRU (Chapter 3/lru.cpp): a shallow embedding and its properties

    The cache of [lru.cpp] is a hash index ([std::unordered_map]) from keys to
    nodes, and a doubly linked recency list of the same nodes between two
    sentinels.  Nodes live on the C++ heap and are linked by
    [shared_ptr] ([next]) and [weak_ptr] ([prev]).  The embedding keeps
    that shape: a heap of nodes addressed by locations, the index as a finite
    map from keys to locations, and the four [unsigned] members as 32-bit
    numbers with their wrap-around written out.

    Every public member function takes [std::lock_guard<std::mutex> lock(m)]
    first; the embedding gives the sequential meaning of one call, that is,
    of one critical section. *)

From stdpp Require Import gmap strings list fin_maps pretty.
From Stdlib Require Import NArith QArith Lia.

Close Scope Q_scope.
Local Open Scope N_scope.

(** ** Machine numbers: [unsigned] *)

Module Unsigned.

(** [unsigned] is 32 bits wide on the platforms the program targets. *)
Definition width : N := 32.
Definition modulus : N := 2 ^ width.
Definition UINT_MAX : N := modulus - 1.

(** [x++] on an [unsigned]. *)
Definition incr (x : N) : N := (x + 1) mod modulus.

(** [x--] on an [unsigned]: 0 wraps to [UINT_MAX]. *)
Definition decr (x : N) : N := (x + modulus - 1) mod modulus.

Definition in_range (x : N) : Prop := x < modulus.

End Unsigned.

(** ** The heap of nodes *)

(** Addresses of heap-allocated nodes. *)
Definition loc := positive.

(** What a member function can do besides returning: throw one of the two
    standard exceptions used by [lru.cpp]. *)
Inductive exn := invalid_argument | out_of_range.

Inductive outcome (A : Type) :=
  | Returned (a : A)
  | Threw (e : exn).
Arguments Returned {A} a.
Arguments Threw {A} e.

Section LRU.

Context {K : Type} `{!EqDecision K, !Countable K}.
Context {V : Type}.

(** The sentinels are built by [Node()], which default-initialises [key]
    and [value]. *)
Variable default_key : K.
Variable default_value : V.

(** [struct Node]: a null [shared_ptr] or an empty [weak_ptr] is [None]. *)
Record Node := mkNode {
  key : K;
  value : V;
  next : option loc;
  prev : option loc
}.

(** [class ThreadSafeLRU], without the mutex; [nodes] is the part of the
    C++ heap that holds the nodes of this cache.  Storage is not reclaimed
    in the embedding: a node that has lost its last [shared_ptr] stays in
    [nodes], out of reach.  On a well-formed cache no member function can
    tell the difference, since [lock] is only applied to the [prev] link of
    a node on the list or of [tail], and these point to nodes on the list or
    to [head]. *)
Record Cache := mkCache {
  nodes : gmap loc Node;
  capacity : N;
  size : N;
  map : gmap K loc;
  head : loc;
  tail : loc;
  hits : N;
  misses : N
}.

Definition with_nodes (h : gmap loc Node) (c : Cache) : Cache :=
  mkCache h (capacity c) (size c) (map c) (head c) (tail c) (hits c) (misses c).
Definition with_size (n : N) (c : Cache) : Cache :=
  mkCache (nodes c) (capacity c) n (map c) (head c) (tail c) (hits c) (misses c).
Definition with_map (m : gmap K loc) (c : Cache) : Cache :=
  mkCache (nodes c) (capacity c) (size c) m (head c) (tail c) (hits c) (misses c).
Definition with_hits (n : N) (c : Cache) : Cache :=
  mkCache (nodes c) (capacity c) (size c) (map c) (head c) (tail c) n (misses c).
Definition with_misses (n : N) (c : Cache) : Cache :=
  mkCache (nodes c) (capacity c) (size c) (map c) (head c) (tail c) (hits c) n.

(** *** Pointer operations

    Dereferencing a null pointer is undefined behaviour: the operations
    below return [None] there, and so does everything built on them. *)

(** [p->next = q] *)
Definition set_next (p : loc) (q : option loc) (h : gmap loc Node) : option (gmap loc Node) :=
  n ← h !! p; Some (<[p := mkNode (key n) (value n) q (prev n)]> h).

(** [p->prev = q] *)
Definition set_prev (p : loc) (q : option loc) (h : gmap loc Node) : option (gmap loc Node) :=
  n ← h !! p; Some (<[p := mkNode (key n) (value n) (next n) q]> h).

(** [p->value = v] *)
Definition set_value (p : loc) (v : V) (h : gmap loc Node) : option (gmap loc Node) :=
  n ← h !! p; Some (<[p := mkNode (key n) v (next n) (prev n)]> h).

(** [w.lock()]: the owning pointer behind a [weak_ptr], null when the
    [weak_ptr] is empty or its node is gone. *)
Definition lock (h : gmap loc Node) (w : option loc) : option loc :=
  l ← w; _ ← h !! l; Some l.

(** [std::make_shared<Node<K,V>>(...)]: a node at an address not in use. *)
Definition make_shared (n : Node) (h : gmap loc Node) : loc * gmap loc Node :=
  let l := fresh (dom h) in (l, <[l := n]> h).

(** *** Private member functions *)

Definition removeNode (node : loc) (c : Cache) : option Cache :=
  let h := nodes c in
  n ← h !! node;
  h1 ← match lock h (prev n) with
       | Some p => set_next p (next n) h
       | None => Some h
       end;
  n1 ← h1 !! node;
  h2 ← match next n1 with
       | Some nx => set_prev nx (prev n1) h1
       | None => Some h1
       end;
  h3 ← set_next node None h2;
  h4 ← set_prev node None h3;
  Some (with_nodes h4 c).

Definition addToFront (node : loc) (c : Cache) : option Cache :=
  let h := nodes c in
  hd ← h !! head c;
  h1 ← set_next node (next hd) h;
  h2 ← set_prev node (Some (head c)) h1;
  hd2 ← h2 !! head c;
  first ← next hd2;
  h3 ← set_prev first (Some node) h2;
  h4 ← set_next (head c) (Some node) h3;
  Some (with_nodes h4 c).

Definition moveToFront (node : loc) (c : Cache) : option Cache :=
  c1 ← removeNode node c;
  addToFront node c1.

Definition evictLRU (c : Cache) : option Cache :=
  if decide (size c = 0) then Some c
  else
    tl ← nodes c !! tail c;
    match lock (nodes c) (prev tl) with
    | Some lru =>
        if decide (lru ≠ head c) then
          c1 ← removeNode lru c;
          n ← nodes c1 !! lru;
          Some (with_size (Unsigned.decr (size c1)) (with_map (delete (key n) (map c1)) c1))
        else Some c
    | None => Some c
    end.

(** *** Public member functions *)

(** [explicit ThreadSafeLRU(unsigned cap = 10)].  The members are
    initialised first, the check of [cap] follows, and an exception leaves
    no object behind. *)
Definition default_capacity : N := 10.

Definition ThreadSafeLRU (cap : option N) : option (outcome Cache) :=
  let cap := default default_capacity cap in
  if decide (cap = 0) then Some (Threw invalid_argument)
  else
    let '(hd, h1) := make_shared (mkNode default_key default_value None None) ∅ in
    let '(tl, h2) := make_shared (mkNode default_key default_value None None) h1 in
    h3 ← set_next hd (Some tl) h2;
    h4 ← set_prev tl (Some hd) h3;
    Some (Returned (mkCache h4 cap 0 ∅ hd tl 0 0)).

Definition get (k : K) (c : Cache) : option (outcome V * Cache) :=
  match map c !! k with
  | None => Some (Threw out_of_range, with_misses (Unsigned.incr (misses c)) c)
  | Some node =>
      c1 ← moveToFront node c;
      let c2 := with_hits (Unsigned.incr (hits c1)) c1 in
      n ← nodes c2 !! node;
      Some (Returned (value n), c2)
  end.

Definition contains (k : K) (c : Cache) : bool * Cache :=
  (bool_decide (map c !! k ≠ None), c).

(** [put(const K&, const V&)] and [put(K&&, V&&)] differ in copying or
    moving their arguments, not in what they do to the cache. *)
Definition put (k : K) (v : V) (c : Cache) : option Cache :=
  match map c !! k with
  | Some node =>
      h1 ← set_value node v (nodes c);
      moveToFront node (with_nodes h1 c)
  | None =>
      let '(newNode, h1) := make_shared (mkNode k v None None) (nodes c) in
      let c1 := with_map (<[k := newNode]> (map c)) (with_nodes h1 c) in
      c2 ← addToFront newNode c1;
      let c3 := with_size (Unsigned.incr (size c2)) c2 in
      if decide (capacity c3 < size c3) then evictLRU c3 else Some c3
  end.

Definition remove (k : K) (c : Cache) : option (bool * Cache) :=
  match map c !! k with
  | None => Some (false, c)
  | Some node =>
      c1 ← removeNode node c;
      Some (true, with_size (Unsigned.decr (size c1)) (with_map (delete k (map c1)) c1))
  end.

(** The statistics; [getHitRatio] divides the two counters as [double]s
    and is left out. *)
Definition getHitMissStats (c : Cache) : N * N := (hits c, misses c).
Definition resetStats (c : Cache) : Cache := with_misses 0 (with_hits 0 c).
Definition getSize (c : Cache) : N := size c.
Definition getCapacity (c : Cache) : N := capacity c.

(** *** Reading a cache

    [lru.cpp] has no iteration of its own; the recency list is read by
    following [next] from the node after [head] until [tail]. *)

Fixpoint walk (fuel : nat) (h : gmap loc Node) (cur stop : loc) : list loc :=
  match fuel with
  | O => []
  | S fuel =>
      if decide (cur = stop) then []
      else cur :: match h !! cur ≫= next with
                  | Some nx => walk fuel h nx stop
                  | None => []
                  end
  end.

(** The nodes between the sentinels, most recently used first. *)
Definition order (c : Cache) : list loc :=
  match nodes c !! head c ≫= next with
  | Some first => walk (base.size (nodes c)) (nodes c) first (tail c)
  | None => []
  end.

Definition entry_at (h : gmap loc Node) (l : loc) : option (K * V) :=
  n ← h !! l; Some (key n, value n).

(** The entries on the recency list, most recently used first. *)
Definition entries (c : Cache) : list (K * V) :=
  omap (entry_at (nodes c)) (order c).

Definition keys (c : Cache) : list K := (entries c).*1.

(** *** The shape of a well-formed cache

    [nextf] and [prevf] read one link of a node; a list of nodes is
    [linked] when each node's [next] is its successor in the list and
    each node's [prev] is its predecessor. *)

Definition nextf (h : gmap loc Node) (l : loc) : option loc := h !! l ≫= next.
Definition prevf (h : gmap loc Node) (l : loc) : option loc := h !! l ≫= prev.

Fixpoint linked (h : gmap loc Node) (ls : list loc) : Prop :=
  match ls with
  | a :: (b :: _) as ls' => nextf h a = Some b ∧ prevf h b = Some a ∧ linked h ls'
  | _ => True
  end.

(** [ls] is the recency list of [c]: the sentinels and the nodes of [ls]
    are pairwise distinct and linked in this order. *)
Record chain (c : Cache) (ls : list loc) : Prop := mkChain {
  chain_nodup : NoDup (head c :: ls ++ [tail c]);
  chain_linked : linked (nodes c) (head c :: ls ++ [tail c])
}.

(** The index maps exactly the keys of the nodes on the list, each to its
    node. *)
Definition indexed (c : Cache) (ls : list loc) : Prop :=
  ∀ k l, map c !! k = Some l ↔ l ∈ ls ∧ fst <$> entry_at (nodes c) l = Some k.

(** Index and list agree. *)
Definition WF (c : Cache) : Prop := ∃ ls, chain c ls ∧ indexed c ls.

(** The invariant of the class: index and list agree, [size] counts the
    entries and stays within [capacity], which is a positive [unsigned]. *)
Definition Inv (c : Cache) : Prop :=
  WF c ∧
  size c = N.of_nat (length (entries c)) ∧ size c ≤ capacity c ∧
  0 < capacity c ∧ Unsigned.in_range (capacity c).

(** *** Checking a cache

    The invariant is decidable: [Invb] evaluates it. *)

Fixpoint linkedb (h : gmap loc Node) (ls : list loc) : bool :=
  match ls with
  | a :: (b :: _) as ls' =>
      bool_decide (nextf h a = Some b) && bool_decide (prevf h b = Some a) &&
      linkedb h ls'
  | _ => true
  end.

Definition chainb (c : Cache) (ls : list loc) : bool :=
  bool_decide (NoDup (head c :: ls ++ [tail c])) &&
  linkedb (nodes c) (head c :: ls ++ [tail c]).

(** The index points to [l] under the key of [l]. *)
Definition points_back (c : Cache) (l : loc) : bool :=
  match entry_at (nodes c) l with
  | Some kv => bool_decide (map c !! kv.1 = Some l)
  | None => true
  end.

Definition indexedb (c : Cache) (ls : list loc) : bool :=
  bool_decide (map_Forall (λ k l, l ∈ ls ∧ fst <$> entry_at (nodes c) l = Some k) (map c)) &&
  forallb (points_back c) ls.

Definition WFb (c : Cache) : bool := chainb c (order c) && indexedb c (order c).

Definition Invb (c : Cache) : bool :=
  WFb c &&
  bool_decide (size c = N.of_nat (length (entries c))) &&
  bool_decide (size c ≤ capacity c) &&
  bool_decide (0 < capacity c) &&
  bool_decide (capacity c < Unsigned.modulus).

(** What a heap [h'] keeps of [h]: the payload of every node. *)
Definition same_entries (h h' : gmap loc Node) : Prop :=
  ∀ l, entry_at h' l = entry_at h l.

Definition entries_of (h : gmap loc Node) (ls : list loc) : list (K * V) :=
  omap (entry_at h) ls.

(** *** Sequences of calls *)

Inductive Op :=
  | Get (k : K)
  | Put (k : K) (v : V)
  | Remove (k : K)
  | Contains (k : K).

(** One completed call; [get] completes also when it throws. *)
Definition step (o : Op) (c : Cache) : option Cache :=
  match o with
  | Get k => snd <$> get k c
  | Put k v => put k v c
  | Remove k => snd <$> remove k c
  | Contains k => Some (contains k c).2
  end.

Fixpoint run (ops : list Op) (c : Cache) : option Cache :=
  match ops with
  | [] => Some c
  | o :: ops' => step o c ≫= run ops'
  end.

(** [put] of each pair of a list, in order. *)
Definition puts (kvs : list (K * V)) : list Op := (λ kv, Put kv.1 kv.2) <$> kvs.

(** [n] times [get k]. *)
Definition gets (k : K) (n : N) : list Op := N.iter n (cons (Get k)) [].

(** The same call of [contains], [n] times. *)
Definition contains_many (k : K) (n : nat) (c : Cache) : Cache :=
  Nat.iter n (λ c, (contains k c).2) c.

(** Index and list agree, and [size] counts the entries modulo [2^32]. *)
Definition Counted (c : Cache) : Prop :=
  WF c ∧
  size c = N.of_nat (length (entries c)) mod Unsigned.modulus ∧
  0 < capacity c ∧ Unsigned.in_range (capacity c).

(** *** Calls with their results

    [call] is one call of a public member function together with what the
    caller sees of it; [calls] is a sequence of them. *)

Inductive Result :=
  | GetResult (r : outcome V)
  | PutDone
  | RemoveResult (b : bool)
  | ContainsResult (b : bool).

Definition call (o : Op) (c : Cache) : option (Result * Cache) :=
  match o with
  | Get k => '(r, c') ← get k c; Some (GetResult r, c')
  | Put k v => c' ← put k v c; Some (PutDone, c')
  | Remove k => '(b, c') ← remove k c; Some (RemoveResult b, c')
  | Contains k => let '(b, c') := contains k c in Some (ContainsResult b, c')
  end.

Fixpoint calls (ops : list Op) (c : Cache) : option (list Result * Cache) :=
  match ops with
  | [] => Some ([], c)
  | o :: ops' =>
      '(r, c1) ← call o c;
      '(rs, c2) ← calls ops' c1;
      Some (r :: rs, c2)
  end.

(** A call of [get]; a [get] that returned, and a [get] that threw. *)
Definition is_get (o : Op) : bool :=
  match o with Get _ => true | _ => false end.
Definition is_hit (r : Result) : bool :=
  match r with GetResult (Returned _) => true | _ => false end.
Definition is_miss (r : Result) : bool :=
  match r with GetResult (Threw _) => true | _ => false end.

Definition count_hits (rs : list Result) : N := N.of_nat (length (List.filter is_hit rs)).
Definition count_misses (rs : list Result) : N := N.of_nat (length (List.filter is_miss rs)).

(** [getHitRatio]: [unsigned total = hits + misses] wraps as any
    [unsigned] sum; the result is [0.0] when [total] is 0 and else
    [static_cast<double>(hits) / total].  Both operands are below [2^32] and
    so exact as [double]s.  The embedding returns the quotient as a rational
    number; the [double] that the code returns is this number rounded to
    the nearest [double], which is [0.0], at most [1.0] or above [1.0]
    exactly when the rational is 0, at most 1 or above 1. *)
Definition getHitRatio (c : Cache) : Q :=
  let total := (hits c + misses c) mod Unsigned.modulus in
  if decide (0 < total)
  then (inject_Z (Z.of_N (hits c)) / inject_Z (Z.of_N total))%Q
  else 0%Q.

(** What the cache stores, as a dictionary. *)
Definition contents (c : Cache) : gmap K V := list_to_map (entries c).

(** *** The end of [main]

    After the worker threads are joined [main] prints up to ten of the keys
    [key_0 .. key_29] that the cache holds, each with the value [get]
    returns, and then stores and reads back one entry.  [print_contents]
    is the loop over the candidate keys [ks]; what goes to [std::cout] and
    [std::cerr] is the list of lines it returns. *)

Inductive line :=
  | Printed (k : K) (v : V)
  | Failed (k : K) (e : exn).

Fixpoint print_contents (ks : list K) (itemsPrinted : nat) (c : Cache)
    : option (list line * Cache) :=
  match ks with
  | [] => Some ([], c)
  | k :: ks' =>
      if decide (itemsPrinted < 10)%nat then
        let '(b, c1) := contains k c in
        if b then
          '(r, c2) ← get k c1;
          match r with
          | Returned v =>
              '(out, c3) ← print_contents ks' (S itemsPrinted) c2;
              Some (Printed k v :: out, c3)
          | Threw e =>
              '(out, c3) ← print_contents ks' itemsPrinted c2;
              Some (Failed k e :: out, c3)
          end
        else print_contents ks' itemsPrinted c1
      else Some ([], c)
  end.

Inductive verdict :=
  | PASSED
  | FAILED
  | FAILED_with (e : exn).

(** [cache.put(testKey, testValue)], then [cache.get(testKey)] compared
    with [testValue]. *)
Definition post_verification `{!EqDecision V} (testKey : K) (testValue : V) (c : Cache)
    : option (verdict * Cache) :=
  c1 ← put testKey testValue c;
  '(r, c2) ← get testKey c1;
  Some (match r with
        | Returned v => if decide (v = testValue) then PASSED else FAILED
        | Threw e => FAILED_with e
        end, c2).

End LRU.

(** ** Scenarios *)

(** [put(0,0), put(1,1), ..., put(n-1,n-1)]: [n] distinct keys. *)
Definition distinct_puts (n : N) : list (@Op N N) :=
  N.peano_rect (λ _, list (@Op N N)) [] (λ i ops, ops ++ [Put i i]) n.

(** A cache as [main] declares it, [ThreadSafeLRU<std::string, int>]; the
    sentinels hold the empty string and 0. *)
Definition new_cache (cap : N) : option (outcome (@Cache string _ _ N)) :=
  ThreadSafeLRU ""%string 0 (Some cap).

(** The cache a constructor call leaves, if it leaves one. *)
Definition constructed {K : Type} `{!EqDecision K, !Countable K} {V : Type}
    (r : option (outcome (@Cache K _ _ V))) : option (@Cache K _ _ V) :=
  match r with
  | Some (Returned c) => Some c
  | _ => None
  end.

(** A cache with keys and values of type [unsigned]. *)
Definition new_ncache (cap : N) : option (outcome (@Cache N _ _ N)) :=
  ThreadSafeLRU 0 0 (Some cap).

(** ["key_" + std::to_string(i)] *)
Definition test_key (i : nat) : string := "key_" +:+ pretty i.

(** The candidate keys of the loop [for (int i = 0; i < 30 && ...; i++)]. *)
Definition test_keys : list string := test_key <$> seq 0 30.


(** * Proofs *)

(** ** Arithmetic of [unsigned] *)

Module UnsignedFacts.
Import Unsigned.

Lemma modulus_eq : modulus = 4294967296.
Proof. reflexivity. Qed.

Lemma UINT_MAX_eq : UINT_MAX = 4294967295.
Proof. reflexivity. Qed.

Lemma incr_small x : x < UINT_MAX → incr x = x + 1.
Proof.
  unfold incr. rewrite UINT_MAX_eq, modulus_eq. intros H.
  apply N.mod_small. lia.
Qed.

Lemma incr_max : incr UINT_MAX = 0.
Proof. reflexivity. Qed.

Lemma incr_in_range x : in_range (incr x).
Proof. unfold in_range, incr. apply N.mod_lt. rewrite modulus_eq. lia. Qed.

Lemma incr_le_max x : incr x ≤ UINT_MAX.
Proof.
  pose proof (incr_in_range x) as H. unfold in_range in H.
  rewrite modulus_eq in H. rewrite UINT_MAX_eq. lia.
Qed.

Lemma decr_pos x : 0 < x → in_range x → decr x = x - 1.
Proof.
  unfold decr, in_range. rewrite modulus_eq. intros H0 H.
  replace (x + 4294967296 - 1) with (x - 1 + 1 * 4294967296) by lia.
  rewrite N.Div0.mod_add. apply N.mod_small. lia.
Qed.


Lemma decr_incr x : x < UINT_MAX → decr (incr x) = x.
Proof.
  intros H. rewrite (incr_small x H).
  rewrite decr_pos; [lia|lia|]. unfold in_range. rewrite UINT_MAX_eq in H.
  rewrite modulus_eq. lia.
Qed.

(** [n] increments add [n] modulo [2^32]. *)
Lemma incr_add x n : (incr x + n) mod modulus = (x + N.succ n) mod modulus.
Proof. unfold incr. rewrite N.Div0.add_mod_idemp_l. f_equal. lia. Qed.

End UnsignedFacts.

Section Proofs.

Context {K : Type} `{!EqDecision K, !Countable K}.
Context {V : Type}.

Implicit Types (h : gmap loc (@Node K V)) (c : @Cache K _ _ V).
Implicit Types (l x a b : loc) (ls pre post : list loc).

(** ** Links after a store *)

Lemma nextf_insert h p (n : @Node K V) l :
  nextf (<[p := n]> h) l = if decide (l = p) then next n else nextf h l.
Proof. unfold nextf. case_decide; simplify_map_eq; done. Qed.

Lemma prevf_insert h p (n : @Node K V) l :
  prevf (<[p := n]> h) l = if decide (l = p) then prev n else prevf h l.
Proof. unfold prevf. case_decide; simplify_map_eq; done. Qed.

Lemma entry_at_insert h p (n : @Node K V) l :
  entry_at (<[p := n]> h) l = if decide (l = p) then Some (key n, value n) else entry_at h l.
Proof. unfold entry_at. case_decide; simplify_map_eq; done. Qed.

Lemma nextf_Some h l b : nextf h l = Some b → is_Some (h !! l).
Proof. unfold nextf. destruct (h !! l); [eauto | done]. Qed.

Lemma prevf_Some h l b : prevf h l = Some b → is_Some (h !! l).
Proof. unfold prevf. destruct (h !! l); [eauto | done]. Qed.

Lemma entry_at_is_Some h l : is_Some (entry_at h l) ↔ is_Some (h !! l).
Proof. unfold entry_at. destruct (h !! l); simpl; split; intros [? ?]; eauto; done. Qed.

Lemma removeNode_links c x a b :
  prevf (nodes c) x = Some a → nextf (nodes c) x = Some b →
  is_Some (nodes c !! a) → is_Some (nodes c !! b) →
  a ≠ x → b ≠ x → a ≠ b →
  ∃ h', removeNode x c = Some (with_nodes h' c) ∧
    (∀ l, nextf h' l = if decide (l = x) then None
                       else if decide (l = a) then Some b else nextf (nodes c) l) ∧
    (∀ l, prevf h' l = if decide (l = x) then None
                       else if decide (l = b) then Some a else prevf (nodes c) l) ∧
    same_entries (nodes c) h'.
Proof.
  intros Hp Hn [na Ha] [nb Hb] Hax Hbx Hab.
  unfold prevf, nextf in Hp, Hn.
  destruct (nodes c !! x) as [n|] eqn:Hx; [simpl in *|done].
  unfold removeNode, lock, set_next, set_prev.
  repeat (simplify_map_eq; simpl).
  eexists. split; [reflexivity|].
  split; [|split]; intros l.
  - rewrite !nextf_insert. simpl. repeat case_decide; subst; try done.
    unfold nextf. by rewrite Hb.
  - rewrite !prevf_insert. simpl. repeat case_decide; subst; try done.
    unfold prevf. by rewrite Ha.
  - rewrite !entry_at_insert. simpl. unfold entry_at.
    repeat case_decide; subst; simplify_option_eq; done.
Qed.

Lemma addToFront_links c x first :
  nextf (nodes c) (head c) = Some first →
  is_Some (nodes c !! x) → is_Some (nodes c !! first) →
  x ≠ head c → x ≠ first → first ≠ head c →
  ∃ h', addToFront x c = Some (with_nodes h' c) ∧
    (∀ l, nextf h' l = if decide (l = head c) then Some x
                       else if decide (l = x) then Some first else nextf (nodes c) l) ∧
    (∀ l, prevf h' l = if decide (l = first) then Some x
                       else if decide (l = x) then Some (head c) else prevf (nodes c) l) ∧
    same_entries (nodes c) h'.
Proof.
  intros Hn [nx Hx] [nf Hf] Hxh Hxf Hfh.
  unfold nextf in Hn.
  destruct (nodes c !! head c) as [nh|] eqn:Hh; [simpl in *|done].
  unfold addToFront, set_next, set_prev.
  repeat (simplify_map_eq; simpl).
  eexists. split; [reflexivity|].
  split; [|split]; intros l.
  - rewrite !nextf_insert. simpl. repeat case_decide; subst; try done.
    unfold nextf. by rewrite Hf.
  - rewrite !prevf_insert. simpl. repeat case_decide; subst; try done.
    unfold prevf. by rewrite Hh.
  - rewrite !entry_at_insert. simpl. unfold entry_at.
    repeat case_decide; subst; simplify_option_eq; done.
Qed.

(** ** Linked lists of nodes *)

Local Ltac in_list :=
  repeat first [rewrite elem_of_app | rewrite elem_of_cons
               | rewrite list_elem_of_singleton];
  intuition (subst; eauto).


Lemma linked_cons h a b ls :
  linked h (a :: b :: ls) ↔ nextf h a = Some b ∧ prevf h b = Some a ∧ linked h (b :: ls).
Proof. done. Qed.

Lemma linked_app h pre a post :
  linked h (pre ++ a :: post) ↔ linked h (pre ++ [a]) ∧ linked h (a :: post).
Proof.
  induction pre as [|y pre IH]; [simpl; tauto|].
  destruct pre as [|y' pre].
  - simpl. destruct post; tauto.
  - change ((y :: y' :: pre) ++ a :: post) with (y :: y' :: (pre ++ a :: post)).
    change ((y :: y' :: pre) ++ [a]) with (y :: y' :: (pre ++ [a])).
    rewrite !linked_cons.
    change (y' :: pre ++ a :: post) with ((y' :: pre) ++ a :: post).
    rewrite IH. simpl. tauto.
Qed.

(** A heap that agrees with [h] on the [next] of all nodes of a list but
    the last, and on the [prev] of all, links the list as [h] does. *)
Lemma linked_ext_init h h' pre a :
  (∀ l, l ∈ pre → nextf h' l = nextf h l) →
  (∀ l, l ∈ pre ++ [a] → prevf h' l = prevf h l) →
  linked h (pre ++ [a]) → linked h' (pre ++ [a]).
Proof.
  induction pre as [|y pre IH]; intros Hn Hp; [done|].
  destruct pre as [|y' pre].
  - simpl. intros (? & ? & _). rewrite Hn, Hp by in_list. done.
  - change ((y :: y' :: pre) ++ [a]) with (y :: y' :: (pre ++ [a])).
    rewrite !linked_cons. intros (? & ? & ?).
    rewrite Hn, Hp by in_list. split_and!; [done..|].
    apply IH; [intros; apply Hn; simpl; by right|intros; apply Hp; simpl; by right|done].
Qed.

(** The same for all nodes but the first. *)
Lemma linked_ext_tail h h' b post :
  (∀ l, l ∈ b :: post → nextf h' l = nextf h l) →
  (∀ l, l ∈ post → prevf h' l = prevf h l) →
  linked h (b :: post) → linked h' (b :: post).
Proof.
  revert b. induction post as [|y post IH]; intros b Hn Hp; [done|].
  rewrite !linked_cons. intros (? & ? & ?).
  rewrite Hn, Hp by in_list. split_and!; [done..|].
  apply IH; [intros; apply Hn; simpl; by right|intros; apply Hp; simpl; by right|done].
Qed.

Lemma linked_lookup h ls l : linked h ls → (2 ≤ length ls)%nat → l ∈ ls → is_Some (h !! l).
Proof.
  revert l. induction ls as [|a ls IH]; intros l; [simpl; lia|].
  destruct ls as [|b ls]; [simpl; lia|].
  rewrite linked_cons. intros (Hn & Hp & Hl) _ Hin.
  apply elem_of_cons in Hin as [->|Hin]; [by eapply nextf_Some|].
  destruct ls as [|b' ls].
  - apply list_elem_of_singleton in Hin as ->. by eapply prevf_Some.
  - apply IH; [done|simpl; lia|done].
Qed.

Lemma NoDup_mid (A : list loc) a x b (B : list loc) :
  NoDup (A ++ a :: x :: b :: B) →
  a ≠ x ∧ b ≠ x ∧ a ≠ b ∧
  (∀ l, l ∈ A → l ≠ a ∧ l ≠ x ∧ l ≠ b) ∧
  (∀ l, l ∈ B → l ≠ a ∧ l ≠ x ∧ l ≠ b) ∧
  NoDup (A ++ a :: b :: B).
Proof.
  rewrite !NoDup_app, !NoDup_cons, !not_elem_of_cons.
  intros (HA & Hd & (Hax & Hab & HaB) & (Hxb & HxB) & HbB & HB).
  assert (∀ l, l ∈ A → l ≠ a ∧ l ≠ x ∧ l ≠ b) as HinA.
  { intros l Hl. specialize (Hd l Hl). rewrite !not_elem_of_cons in Hd. tauto. }
  split_and!; try done; try congruence.
  - intros l Hl. split_and!; intros ->; done.
  - intros l Hl. specialize (HinA l Hl). rewrite !not_elem_of_cons.
    split_and!; try tauto. intros Hin. destruct (Hd l Hl). by do 3 right.
Qed.

Lemma same_entries_is_Some h h' l :
  same_entries h h' → is_Some (h !! l) → is_Some (h' !! l).
Proof. intros He. rewrite <-!entry_at_is_Some. by rewrite He. Qed.

Lemma same_entries_trans h h1 h2 :
  same_entries h h1 → same_entries h1 h2 → same_entries h h2.
Proof. intros H1 H2 l. by rewrite H2, H1. Qed.

(** ** The private member functions on a well-formed list *)

Lemma removeNode_chain c pre x post :
  chain c (pre ++ x :: post) →
  ∃ h', removeNode x c = Some (with_nodes h' c) ∧
        chain (with_nodes h' c) (pre ++ post) ∧
        same_entries (nodes c) h'.
Proof.
  intros [Hnd Hl].
  assert (∃ A a, head c :: pre = A ++ [a]) as (A & a & HA).
  { destruct pre as [|y pre _] using rev_ind.
    - by exists [], (head c).
    - by exists (head c :: pre), y. }
  assert (∃ b B, post ++ [tail c] = b :: B) as (b & B & HB).
  { destruct post; simpl; eauto. }
  assert (head c :: (pre ++ x :: post) ++ [tail c] = A ++ a :: x :: b :: B) as HF.
  { rewrite <-app_assoc. simpl. rewrite HB.
    change (head c :: pre ++ x :: b :: B) with ((head c :: pre) ++ x :: b :: B).
    rewrite HA, <-app_assoc. done. }
  assert (head c :: (pre ++ post) ++ [tail c] = A ++ a :: b :: B) as HF'.
  { rewrite <-app_assoc, HB.
    change (head c :: pre ++ b :: B) with ((head c :: pre) ++ b :: B).
    rewrite HA, <-app_assoc. done. }
  rewrite HF in Hnd, Hl.
  apply NoDup_mid in Hnd as (Hax & Hbx & Hab & HinA & HinB & Hnd').
  apply linked_app in Hl as [HlA Hl].
  rewrite !linked_cons in Hl. destruct Hl as (Hna & Hpx & Hnx & Hpb & HlB).
  destruct (removeNode_links c x a b) as (h' & Hrm & Hn' & Hp' & He); try done.
  { by eapply nextf_Some. }
  { by eapply prevf_Some. }
  exists h'. split_and!; [done| |done].
  split; unfold with_nodes; cbn [head tail nodes]; rewrite HF'; [done|].
  apply linked_app. split.
  - eapply linked_ext_init; [| |exact HlA].
    + intros l Hin. destruct (HinA l Hin) as (? & ? & ?).
      rewrite Hn'. by repeat case_decide.
    + intros l Hin. rewrite Hp'.
      apply elem_of_app in Hin as [Hin|Hin].
      * destruct (HinA l Hin) as (? & ? & ?). by repeat case_decide.
      * apply list_elem_of_singleton in Hin as ->. by repeat case_decide.
  - rewrite linked_cons. split_and!.
    + rewrite Hn'. by repeat case_decide.
    + rewrite Hp'. by repeat case_decide.
    + eapply linked_ext_tail; [| |exact HlB].
      * intros l Hin. rewrite Hn'.
        apply elem_of_cons in Hin as [->|Hin].
        -- by repeat case_decide.
        -- destruct (HinB l Hin) as (? & ? & ?). by repeat case_decide.
      * intros l Hin. destruct (HinB l Hin) as (? & ? & ?).
        rewrite Hp'. by repeat case_decide.
Qed.

Lemma addToFront_chain c x ls :
  chain c ls → x ∉ head c :: ls ++ [tail c] → is_Some (nodes c !! x) →
  ∃ h', addToFront x c = Some (with_nodes h' c) ∧
        chain (with_nodes h' c) (x :: ls) ∧
        same_entries (nodes c) h'.
Proof.
  intros [Hnd Hl] Hx Hsx.
  assert (∃ b B, ls ++ [tail c] = b :: B) as (b & B & HB).
  { destruct ls; simpl; eauto. }
  rewrite HB in Hnd, Hl, Hx.
  rewrite linked_cons in Hl. destruct Hl as (Hnh & Hpb & HlB).
  apply NoDup_cons in Hnd as [Hhd Hnd].
  pose proof Hnd as Hnd'. apply NoDup_cons in Hnd' as [Hb _].
  apply not_elem_of_cons in Hhd. apply not_elem_of_cons in Hx as [Hxh Hx].
  apply not_elem_of_cons in Hx as [Hxb HxB].
  destruct Hhd as [Hhb HhB].
  destruct (addToFront_links c x b) as (h' & Hadd & Hn' & Hp' & He); try done.
  { by eapply prevf_Some. }
  exists h'. split_and!; [done| |done].
  split; unfold with_nodes; cbn [head tail nodes].
  - change ((x :: ls) ++ [tail c]) with (x :: (ls ++ [tail c])). rewrite HB.
    rewrite !NoDup_cons, !not_elem_of_cons.
    apply NoDup_cons in Hnd as [_ Hnd]. split_and!; (done || congruence).
  - change ((x :: ls) ++ [tail c]) with (x :: (ls ++ [tail c])). rewrite HB.
    rewrite !linked_cons. split_and!.
    + rewrite Hn'. by repeat case_decide.
    + rewrite Hp'. by repeat case_decide.
    + rewrite Hn'. by repeat case_decide.
    + rewrite Hp'. by repeat case_decide.
    + eapply linked_ext_tail; [| |exact HlB].
      * intros l Hin. rewrite Hn'.
        assert (l ≠ head c ∧ l ≠ x) as [? ?].
        { apply elem_of_cons in Hin as [->|Hin]; [done|].
          split; intros ->; done. }
        by repeat case_decide.
      * intros l Hin. rewrite Hp'.
        assert (l ≠ b ∧ l ≠ x) as [? ?] by (split; intros ->; done).
        by repeat case_decide.
Qed.

Lemma chain_elem_not_sentinel c ls l :
  chain c ls → l ∈ ls → l ≠ head c ∧ l ≠ tail c.
Proof.
  intros [Hnd _] Hin. apply NoDup_cons in Hnd as [Hh Hnd].
  apply NoDup_app in Hnd as (_ & Ht & _).
  split; intros ->.
  - apply Hh. apply elem_of_app. by left.
  - apply (Ht _ Hin). by left.
Qed.

Lemma chain_lookup c ls l :
  chain c ls → l ∈ head c :: ls ++ [tail c] → is_Some (nodes c !! l).
Proof.
  intros [_ Hl] Hin. eapply linked_lookup; [done| |done].
  simpl. rewrite length_app. simpl. lia.
Qed.

Lemma moveToFront_chain c pre x post :
  chain c (pre ++ x :: post) →
  ∃ h', moveToFront x c = Some (with_nodes h' c) ∧
        chain (with_nodes h' c) (x :: pre ++ post) ∧
        same_entries (nodes c) h'.
Proof.
  intros Hc.
  destruct (removeNode_chain c pre x post Hc) as (h1 & Hrm & Hc1 & He1).
  destruct (addToFront_chain (with_nodes h1 c) x (pre ++ post)) as (h2 & Hadd & Hc2 & He2).
  - done.
  - destruct Hc as [Hnd _]. cbn [head tail with_nodes].
    rewrite <-app_assoc in Hnd |- *. simpl in Hnd.
    change (head c :: pre ++ x :: post ++ [tail c])
      with ((head c :: pre) ++ x :: (post ++ [tail c])) in Hnd.
    apply NoDup_app in Hnd as (_ & Hpre & Hpost).
    apply NoDup_cons in Hpost as [Hpost _].
    change (head c :: pre ++ post ++ [tail c])
      with ((head c :: pre) ++ (post ++ [tail c])).
    rewrite elem_of_app. intros [Hin|Hin]; [|done].
    apply (Hpre _ Hin). by left.
  - cbn [nodes with_nodes]. eapply same_entries_is_Some; [done|].
    eapply chain_lookup; [done|]. right. rewrite <-app_assoc.
    apply elem_of_app. right. by left.
  - exists h2. unfold moveToFront. rewrite Hrm. simpl.
    split_and!; [done|done|by eapply same_entries_trans].
Qed.

(** ** Reading the list back *)

Lemma walk_linked h ls t fuel :
  NoDup (ls ++ [t]) → linked h (ls ++ [t]) → (length ls < fuel)%nat →
  walk fuel h (hd t ls) t = ls.
Proof.
  revert fuel. induction ls as [|a ls IH]; intros fuel Hnd Hl Hf.
  - destruct fuel; [simpl in Hf; lia|]. simpl. by rewrite decide_True.
  - destruct fuel; [simpl in Hf; lia|]. simpl in *.
    apply NoDup_cons in Hnd as [Ha Hnd].
    rewrite decide_False by (intros ->; apply Ha, elem_of_app; right; by left).
    assert (nextf h a = Some (hd t ls) ∧ linked h (ls ++ [t])) as [Hn Hl'].
    { destruct ls; simpl in *; tauto. }
    unfold nextf in Hn. rewrite Hn. f_equal. apply IH; [done|done|lia].
Qed.

Lemma chain_size c ls : chain c ls → (length ls + 2 ≤ base.size (nodes c))%nat.
Proof.
  intros Hc. pose proof (chain_nodup _ _ Hc) as Hnd.
  assert (list_to_set (C := gset loc) (head c :: ls ++ [tail c]) ⊆ dom (nodes c)) as Hsub.
  { intros l Hl. apply elem_of_list_to_set in Hl. apply elem_of_dom.
    by eapply chain_lookup. }
  apply subseteq_size in Hsub. rewrite size_list_to_set in Hsub by done.
  rewrite size_dom in Hsub. simpl in Hsub. rewrite length_app in Hsub.
  simpl in Hsub. lia.
Qed.

Lemma order_chain c ls : chain c ls → order c = ls.
Proof.
  intros Hc. pose proof (chain_size _ _ Hc) as Hsz.
  destruct Hc as [Hnd Hl]. unfold order.
  assert (nextf (nodes c) (head c) = Some (hd (tail c) ls) ∧
          linked (nodes c) (ls ++ [tail c])) as [Hn Hl'].
  { destruct ls; simpl in *; tauto. }
  unfold nextf in Hn. rewrite Hn.
  apply NoDup_cons in Hnd as [_ Hnd].
  apply walk_linked; [done|done|lia].
Qed.

(** The list of a well-formed cache is unique. *)
Lemma chain_unique c ls ls' : chain c ls → chain c ls' → ls = ls'.
Proof. intros H1 H2. by rewrite <-(order_chain _ _ H1), <-(order_chain _ _ H2). Qed.

Lemma entries_chain c ls : chain c ls → entries c = entries_of (nodes c) ls.
Proof. intros Hc. unfold entries. by rewrite (order_chain _ _ Hc). Qed.

Lemma entries_of_unfold h x ls :
  entries_of h (x :: ls) =
  match entry_at h x with
  | Some e => e :: entries_of h ls
  | None => entries_of h ls
  end.
Proof. done. Qed.

Lemma entries_of_ext h h' ls :
  same_entries h h' → entries_of h' ls = entries_of h ls.
Proof.
  intros He. induction ls as [|a ls IH]; [done|].
  by rewrite !entries_of_unfold, He, IH.
Qed.

Lemma entries_of_app h pre post :
  entries_of h (pre ++ post) = entries_of h pre ++ entries_of h post.
Proof. apply omap_app. Qed.

Lemma entries_of_cons h x ls e :
  entry_at h x = Some e → entries_of h (x :: ls) = e :: entries_of h ls.
Proof. intros He. by rewrite entries_of_unfold, He. Qed.

Lemma entries_of_length h ls :
  (∀ l, l ∈ ls → is_Some (h !! l)) → length (entries_of h ls) = length ls.
Proof.
  induction ls as [|a ls IH]; intros Hin; [done|].
  destruct (proj2 (entry_at_is_Some h a) (Hin a ltac:(by left))) as [e He].
  rewrite (entries_of_cons _ _ _ _ He). simpl. f_equal.
  apply IH. intros l Hl. apply Hin. by right.
Qed.

Lemma elem_of_entries_of h ls e :
  e ∈ entries_of h ls ↔ ∃ l, l ∈ ls ∧ entry_at h l = Some e.
Proof. apply list_elem_of_omap. Qed.

(** ** The index *)

Lemma chain_same c c' ls :
  nodes c' = nodes c → head c' = head c → tail c' = tail c →
  chain c ls → chain c' ls.
Proof. intros Hn Hh Ht [? ?]. split; rewrite Hn, Hh, Ht || rewrite Hh, Ht; done. Qed.

Lemma indexed_split c ls k x :
  chain c ls → indexed c ls → map c !! k = Some x →
  ∃ pre post v, ls = pre ++ x :: post ∧ entry_at (nodes c) x = Some (k, v).
Proof.
  intros Hc Hi Hm. apply Hi in Hm as [Hin Hk].
  apply list_elem_of_split in Hin as (pre & post & ->).
  destruct (entry_at (nodes c) x) as [[k' v]|]; simplify_eq/=.
  by exists pre, post, v.
Qed.

Lemma indexed_keys c ls k :
  indexed c ls → is_Some (map c !! k) ↔ k ∈ (entries_of (nodes c) ls).*1.
Proof.
  intros Hi. rewrite list_elem_of_fmap. setoid_rewrite elem_of_entries_of.
  split.
  - intros [x Hx]. apply Hi in Hx as [Hin Hk].
    destruct (entry_at (nodes c) x) as [[k' v]|] eqn:He; simplify_eq/=.
    exists (k, v). split; [done|]. by exists x.
  - intros ([k' v] & -> & x & Hin & He). exists x. apply Hi.
    split; [done|]. by rewrite He.
Qed.

Lemma indexed_NoDup_keys c ls :
  NoDup ls → indexed c ls → NoDup (entries_of (nodes c) ls).*1.
Proof.
  intros Hnd Hi.
  assert (∀ l1 l2 k, l1 ∈ ls → l2 ∈ ls →
            fst <$> entry_at (nodes c) l1 = Some k →
            fst <$> entry_at (nodes c) l2 = Some k → l1 = l2) as Hinj.
  { intros l1 l2 k H1 H2 E1 E2.
    assert (map c !! k = Some l1) as M1 by (by apply Hi).
    assert (map c !! k = Some l2) as M2 by (by apply Hi).
    congruence. }
  clear Hi. induction Hnd as [|a ls Ha Hnd IH]; [constructor|].
  rewrite entries_of_unfold.
  destruct (entry_at (nodes c) a) as [[k v]|] eqn:He.
  - simpl. constructor.
    + rewrite list_elem_of_fmap. setoid_rewrite elem_of_entries_of.
      intros ([k' v'] & Hk & l & Hin & Hl). simpl in Hk. subst k'.
      apply Ha. rewrite (Hinj a l k); [done|by left|by right| |].
      * by rewrite He.
      * by rewrite Hl.
    + apply IH. intros l1 l2 k' H1 H2. apply Hinj; by right.
  - apply IH. intros l1 l2 k' H1 H2. apply Hinj; by right.
Qed.

(** ** What agreement of index and list gives *)

Lemma WF_present c k : WF c → is_Some (map c !! k) ↔ k ∈ keys c.
Proof.
  intros (ls & Hc & Hi). unfold keys. rewrite (entries_chain _ _ Hc).
  by apply indexed_keys.
Qed.

Lemma WF_absent c k : WF c → map c !! k = None ↔ k ∉ keys c.
Proof. intros Hwf. rewrite <-(WF_present _ _ Hwf), eq_None_not_Some. done. Qed.

Lemma WF_NoDup_keys c : WF c → NoDup (keys c).
Proof.
  intros (ls & Hc & Hi). unfold keys. rewrite (entries_chain _ _ Hc).
  apply indexed_NoDup_keys; [|done].
  pose proof (chain_nodup _ _ Hc) as Hnd.
  apply NoDup_cons in Hnd as [_ Hnd]. by apply NoDup_app in Hnd as [? _].
Qed.

Lemma WF_dom c : WF c → dom (map c) = list_to_set (keys c).
Proof.
  intros Hwf. apply set_eq. intros k.
  by rewrite elem_of_dom, elem_of_list_to_set, WF_present.
Qed.

Lemma WF_map_size c : WF c → base.size (map c) = length (keys c).
Proof.
  intros Hwf. rewrite <-size_dom, (WF_dom _ Hwf).
  apply size_list_to_set, WF_NoDup_keys, Hwf.
Qed.

(** Every node the index points to is met exactly once on the walk from
    [head] to [tail], and every node met is one the index points to. *)
Lemma WF_order c :
  WF c → NoDup (order c) ∧ ∀ l, l ∈ order c ↔ ∃ k, map c !! k = Some l.
Proof.
  intros (ls & Hc & Hi). rewrite (order_chain _ _ Hc). split.
  - pose proof (chain_nodup _ _ Hc) as Hnd.
    apply NoDup_cons in Hnd as [_ Hnd]. by apply NoDup_app in Hnd as [? _].
  - intros l. split.
    + intros Hin.
      destruct (chain_lookup c ls l Hc) as [n Hn].
      { right. apply elem_of_app. by left. }
      exists (key n). apply Hi. split; [done|]. unfold entry_at. by rewrite Hn.
    + intros [k Hk]. by apply Hi in Hk as [? _].
Qed.

(** ** The public member functions on a well-formed cache *)

Lemma indexed_move c h' ls ls' :
  indexed c ls → same_entries (nodes c) h' → (∀ l, l ∈ ls' ↔ l ∈ ls) →
  indexed (with_nodes h' c) ls'.
Proof.
  intros Hi He Hp k l. cbn [map nodes with_nodes]. by rewrite He, Hp.
Qed.

Lemma entry_at_lookup h l k v :
  entry_at h l = Some (k, v) → ∃ n, h !! l = Some n ∧ key n = k ∧ value n = v.
Proof.
  unfold entry_at. destruct (h !! l) as [n|]; [|done].
  simpl. intros [= <- <-]. eauto.
Qed.

Lemma elem_of_moved (pre post : list loc) x l :
  l ∈ x :: pre ++ post ↔ l ∈ pre ++ x :: post.
Proof. rewrite elem_of_cons, !elem_of_app, elem_of_cons. tauto. Qed.

Lemma get_hit_spec c k x :
  WF c → map c !! k = Some x →
  ∃ es1 v es2 c',
    entries c = es1 ++ (k, v) :: es2 ∧
    get k c = Some (Returned v, c') ∧
    WF c' ∧ entries c' = (k, v) :: es1 ++ es2 ∧
    map c' = map c ∧ size c' = size c ∧ capacity c' = capacity c ∧
    hits c' = Unsigned.incr (hits c) ∧ misses c' = misses c.
Proof.
  intros (ls & Hc & Hi) Hm.
  destruct (indexed_split _ _ _ _ Hc Hi Hm) as (pre & post & v & -> & He).
  destruct (moveToFront_chain _ _ _ _ Hc) as (h' & Hmv & Hc' & Hse).
  set (c' := with_hits (Unsigned.incr (hits c)) (with_nodes h' c)).
  assert (chain c' (x :: pre ++ post)) as Hc'' by (eapply chain_same; [| | |exact Hc']; done).
  exists (entries_of (nodes c) pre), v, (entries_of (nodes c) post), c'.
  split_and!; try done.
  - by rewrite (entries_chain _ _ Hc), entries_of_app, (entries_of_cons _ _ _ _ He).
  - unfold get. rewrite Hm, Hmv. simpl.
    rewrite <-Hse in He. apply entry_at_lookup in He as (n & -> & _ & <-). done.
  - exists (x :: pre ++ post). split; [done|].
    apply (indexed_move c h' _ _ Hi Hse). apply elem_of_moved.
  - rewrite (entries_chain _ _ Hc''). cbn [nodes c' with_hits with_nodes].
    rewrite (entries_of_ext _ _ _ Hse).
    by rewrite (entries_of_cons _ _ _ _ He), entries_of_app.
Qed.

Lemma get_miss_spec c k :
  map c !! k = None →
  get k c = Some (Threw out_of_range, with_misses (Unsigned.incr (misses c)) c).
Proof. intros Hm. unfold get. by rewrite Hm. Qed.

Lemma WF_same c c' :
  nodes c' = nodes c → head c' = head c → tail c' = tail c → map c' = map c →
  WF c → WF c'.
Proof.
  intros Hn Hh Ht Hm (ls & Hc & Hi). exists ls. split; [by eapply chain_same|].
  intros k l. rewrite Hm, Hn. apply Hi.
Qed.

Lemma remove_hit_spec c k x :
  WF c → map c !! k = Some x →
  ∃ es1 v es2 c',
    entries c = es1 ++ (k, v) :: es2 ∧
    remove k c = Some (true, c') ∧
    WF c' ∧ entries c' = es1 ++ es2 ∧
    map c' = delete k (map c) ∧
    size c' = Unsigned.decr (size c) ∧ capacity c' = capacity c ∧
    hits c' = hits c ∧ misses c' = misses c.
Proof.
  intros (ls & Hc & Hi) Hm.
  destruct (indexed_split _ _ _ _ Hc Hi Hm) as (pre & post & v & -> & He).
  destruct (removeNode_chain _ _ _ _ Hc) as (h' & Hrm & Hc' & Hse).
  set (c' := with_size (Unsigned.decr (size c))
               (with_map (delete k (map c)) (with_nodes h' c))).
  assert (chain c' (pre ++ post)) as Hc'' by (eapply chain_same; [| | |exact Hc']; done).
  exists (entries_of (nodes c) pre), v, (entries_of (nodes c) post), c'.
  split_and!; try done.
  - by rewrite (entries_chain _ _ Hc), entries_of_app, (entries_of_cons _ _ _ _ He).
  - unfold remove. by rewrite Hm, Hrm.
  - exists (pre ++ post). split; [done|].
    intros k' l. cbn [map nodes c' with_size with_map with_nodes].
    rewrite Hse. pose proof (chain_nodup _ _ Hc) as Hnd.
    apply NoDup_cons in Hnd as [_ Hnd]. apply NoDup_app in Hnd as [Hnd _].
    apply NoDup_app in Hnd as (_ & Hpre & Hpost).
    apply NoDup_cons in Hpost as [Hpost _].
    destruct (decide (k' = k)) as [->|Hne].
    + rewrite lookup_delete_eq. split; [done|]. intros [Hin Hk].
      assert (map c !! k = Some l) as Hl.
      { apply Hi. split; [|done]. by apply elem_of_moved; right. }
      assert (l = x) as -> by congruence.
      apply elem_of_app in Hin as [Hin|Hin]; [|done].
      exfalso. apply (Hpre _ Hin). by left.
    + rewrite lookup_delete_ne by done. rewrite (Hi k' l).
      split; intros [Hin Hk]; (split; [|done]).
      * apply elem_of_moved in Hin. apply elem_of_cons in Hin as [->|Hin]; [|done].
        rewrite He in Hk. simpl in Hk. congruence.
      * apply elem_of_moved. by right.
  - rewrite (entries_chain _ _ Hc''). cbn [nodes c' with_size with_map with_nodes].
    by rewrite (entries_of_ext _ _ _ Hse), entries_of_app.
Qed.

Lemma linked_ext h h' ls :
  (∀ l, nextf h' l = nextf h l) → (∀ l, prevf h' l = prevf h l) →
  linked h ls → linked h' ls.
Proof.
  intros Hn Hp. destruct ls as [|b ls]; [done|].
  apply linked_ext_tail; auto.
Qed.

Lemma entries_of_ext_in h h' ls :
  (∀ l, l ∈ ls → entry_at h' l = entry_at h l) →
  entries_of h' ls = entries_of h ls.
Proof.
  induction ls as [|a ls IH]; intros He; [done|].
  rewrite !entries_of_unfold, He, IH; [done| |by left].
  intros l Hl. apply He. by right.
Qed.

Lemma evictLRU_spec c :
  WF c → size c ≠ 0 → entries c ≠ [] →
  ∃ es e c',
    entries c = es ++ [e] ∧
    evictLRU c = Some c' ∧
    WF c' ∧ entries c' = es ∧
    map c' = delete e.1 (map c) ∧
    size c' = Unsigned.decr (size c) ∧ capacity c' = capacity c ∧
    hits c' = hits c ∧ misses c' = misses c.
Proof.
  intros (ls & Hc & Hi) Hsz Hne.
  rewrite (entries_chain _ _ Hc) in Hne.
  destruct ls as [|x pre _] using rev_ind; [done|]. clear Hne.
  pose proof (chain_linked _ _ Hc) as Hl.
  rewrite <-app_assoc in Hl.
  change (head c :: pre ++ [x] ++ [tail c])
    with ((head c :: pre) ++ x :: [tail c]) in Hl.
  apply linked_app in Hl as [_ Hl]. destruct Hl as (_ & Hpt & _).
  destruct (chain_elem_not_sentinel c _ x Hc) as [Hxh _].
  { apply elem_of_app. right. by left. }
  destruct (chain_lookup c _ x Hc) as [n Hn].
  { right. apply elem_of_app. left. apply elem_of_app. right. by left. }
  destruct (removeNode_chain _ _ _ _ Hc) as (h' & Hrm & Hc' & Hse).
  rewrite app_nil_r in Hc'.
  assert (entry_at (nodes c) x = Some (key n, value n)) as He.
  { unfold entry_at. by rewrite Hn. }
  set (c' := with_size (Unsigned.decr (size c))
               (with_map (delete (key n) (map c)) (with_nodes h' c))).
  assert (chain c' pre) as Hc'' by (eapply chain_same; [| | |exact Hc']; done).
  exists (entries_of (nodes c) pre), (key n, value n), c'.
  split_and!; try done.
  - by rewrite (entries_chain _ _ Hc), entries_of_app,
      (entries_of_cons _ _ _ _ He).
  - unfold evictLRU. rewrite decide_False by done.
    unfold prevf in Hpt.
    destruct (nodes c !! tail c) as [tl|]; [simpl in *|done].
    rewrite Hpt. unfold lock. simpl. rewrite Hn. simpl.
    rewrite decide_True by done. rewrite Hrm. simpl.
    pose proof He as He'. rewrite <-Hse in He'.
    apply entry_at_lookup in He' as (n' & Hn' & Hk' & _).
    rewrite Hn'. simpl. by rewrite Hk'.
  - exists pre. split; [done|].
    intros k' l. cbn [map nodes c' with_size with_map with_nodes].
    rewrite Hse. pose proof (chain_nodup _ _ Hc) as Hnd.
    apply NoDup_cons in Hnd as [_ Hnd]. apply NoDup_app in Hnd as [Hnd _].
    apply NoDup_app in Hnd as (_ & Hpre & _).
    destruct (decide (k' = key n)) as [->|Hk].
    + rewrite lookup_delete_eq. split; [done|]. intros [Hin Hk].
      assert (map c !! key n = Some l) as M1.
      { apply Hi. split; [|done]. apply elem_of_app. by left. }
      assert (map c !! key n = Some x) as M2.
      { apply Hi. split; [|by rewrite He]. apply elem_of_app. right. by left. }
      assert (l = x) as -> by congruence.
      exfalso. apply (Hpre _ Hin). by left.
    + rewrite lookup_delete_ne by done. rewrite (Hi k' l).
      split; intros [Hin Hk']; (split; [|done]).
      * apply elem_of_app in Hin as [Hin|Hin]; [done|].
        apply list_elem_of_singleton in Hin as ->.
        rewrite He in Hk'. simpl in Hk'. congruence.
      * apply elem_of_app. by left.
  - rewrite (entries_chain _ _ Hc''). cbn [nodes c' with_size with_map with_nodes].
    by rewrite (entries_of_ext _ _ _ Hse).
Qed.

Lemma put_hit_spec c k v x :
  WF c → map c !! k = Some x →
  ∃ es1 v0 es2 c',
    entries c = es1 ++ (k, v0) :: es2 ∧
    put k v c = Some c' ∧
    WF c' ∧ entries c' = (k, v) :: es1 ++ es2 ∧
    map c' = map c ∧ size c' = size c ∧ capacity c' = capacity c ∧
    hits c' = hits c ∧ misses c' = misses c.
Proof.
  intros (ls & Hc & Hi) Hm.
  destruct (indexed_split _ _ _ _ Hc Hi Hm) as (pre & post & v0 & -> & He).
  destruct (entry_at_lookup _ _ _ _ He) as (n & Hn & Hk & Hv).
  set (h1 := <[x := mkNode (key n) v (next n) (prev n)]> (nodes c)).
  assert (∀ l, nextf h1 l = nextf (nodes c) l) as Hn1.
  { intros l. unfold h1. rewrite nextf_insert. case_decide; [subst|done].
    unfold nextf. by rewrite Hn. }
  assert (∀ l, prevf h1 l = prevf (nodes c) l) as Hp1.
  { intros l. unfold h1. rewrite prevf_insert. case_decide; [subst|done].
    unfold prevf. by rewrite Hn. }
  assert (∀ l, entry_at h1 l = if decide (l = x) then Some (k, v)
                               else entry_at (nodes c) l) as He1.
  { intros l. unfold h1. rewrite entry_at_insert. simpl. by rewrite Hk. }
  assert (chain (with_nodes h1 c) (pre ++ x :: post)) as Hc1.
  { destruct Hc as [Hnd Hl]. split; cbn [head tail nodes with_nodes]; [done|].
    by eapply linked_ext. }
  destruct (moveToFront_chain _ _ _ _ Hc1) as (h2 & Hmv & Hc2 & Hse).
  cbn [nodes with_nodes] in Hse.
  pose proof (chain_nodup _ _ Hc) as Hnd.
  apply NoDup_cons in Hnd as [_ Hnd]. apply NoDup_app in Hnd as [Hnd _].
  apply NoDup_app in Hnd as (_ & Hpre & Hpost).
  apply NoDup_cons in Hpost as [Hpost _].
  exists (entries_of (nodes c) pre), v0, (entries_of (nodes c) post),
    (with_nodes h2 (with_nodes h1 c)).
  split_and!; try done.
  - by rewrite (entries_chain _ _ Hc), entries_of_app, (entries_of_cons _ _ _ _ He).
  - unfold put, set_value. rewrite Hm, Hn. simpl. exact Hmv.
  - exists (x :: pre ++ post). split; [done|].
    intros k' l. cbn [map nodes with_nodes]. rewrite Hse, He1, elem_of_moved.
    rewrite (Hi k' l). case_decide; [subst l|done].
    by rewrite He.
  - rewrite (entries_chain _ _ Hc2). cbn [nodes with_nodes].
    rewrite (entries_of_ext _ _ _ Hse).
    rewrite (entries_of_cons _ _ _ (k, v)), entries_of_app
      by (by rewrite He1, decide_True).
    f_equal. f_equal; apply entries_of_ext_in; intros l Hl; rewrite He1.
    + rewrite decide_False; [done|]. intros ->. apply (Hpre _ Hl). by left.
    + rewrite decide_False; [done|]. by intros ->.
Qed.

Lemma put_new_spec c k v :
  WF c → map c !! k = None →
  ∃ c',
    put k v c = Some c' ∧ WF c' ∧
    capacity c' = capacity c ∧ hits c' = hits c ∧ misses c' = misses c ∧
    if decide (capacity c < Unsigned.incr (size c)) then
      entries c' = removelast ((k, v) :: entries c) ∧
      size c' = Unsigned.decr (Unsigned.incr (size c))
    else
      entries c' = (k, v) :: entries c ∧ size c' = Unsigned.incr (size c).
Proof.
  intros (ls & Hc & Hi) Hm.
  set (x := fresh (dom (nodes c))).
  assert (nodes c !! x = None) as Hx.
  { apply not_elem_of_dom. apply is_fresh. }
  set (h1 := <[x := mkNode k v None None]> (nodes c)).
  assert (∀ l, nextf h1 l = nextf (nodes c) l) as Hn1.
  { intros l. unfold h1. rewrite nextf_insert. case_decide; [subst|done].
    unfold nextf. by rewrite Hx. }
  assert (∀ l, prevf h1 l = prevf (nodes c) l) as Hp1.
  { intros l. unfold h1. rewrite prevf_insert. case_decide; [subst|done].
    unfold prevf. by rewrite Hx. }
  assert (∀ l, entry_at h1 l = if decide (l = x) then Some (k, v)
                               else entry_at (nodes c) l) as He1.
  { intros l. unfold h1. by rewrite entry_at_insert. }
  set (c1 := with_map (<[k := x]> (map c)) (with_nodes h1 c)).
  assert (chain c1 ls) as Hc1.
  { destruct Hc as [Hnd Hl]. split; cbn [head tail nodes c1 with_map with_nodes]; [done|].
    by eapply linked_ext. }
  assert (x ∉ head c :: ls ++ [tail c]) as Hxl.
  { intros Hin. apply (chain_lookup _ _ _ Hc) in Hin as [? ?]. congruence. }
  destruct (addToFront_chain c1 x ls Hc1) as (h2 & Hadd & Hc2 & Hse); [done| |].
  { cbn [nodes c1 with_map with_nodes]. unfold h1. rewrite lookup_insert_eq. eauto. }
  cbn [nodes c1 with_map with_nodes] in Hse.
  set (c3 := with_size (Unsigned.incr (size c)) (with_nodes h2 c1)).
  assert (chain c3 (x :: ls)) as Hc3 by (eapply chain_same; [| | |exact Hc2]; done).
  assert (∀ l, l ∈ ls → l ≠ x) as Hlx.
  { intros l Hl ->. apply Hxl. right. apply elem_of_app. by left. }
  assert (indexed c3 (x :: ls)) as Hi3.
  { intros k' l. cbn [map nodes c3 c1 with_size with_map with_nodes].
    rewrite Hse, He1, elem_of_cons.
    destruct (decide (k' = k)) as [->|Hk].
    - rewrite lookup_insert_eq. split.
      + intros [= <-]. rewrite decide_True by done. auto.
      + intros [[->| Hin] Hk]; [done|].
        rewrite decide_False in Hk by auto.
        assert (map c !! k = Some l) by (by apply Hi). congruence.
    - rewrite lookup_insert_ne by done. rewrite (Hi k' l). split.
      + intros [Hin Hk']. rewrite decide_False by auto. auto.
      + intros [[->| Hin] Hk'].
        * rewrite decide_True in Hk' by done. simpl in Hk'. congruence.
        * rewrite decide_False in Hk' by auto. auto. }
  assert (WF c3) as Hwf3 by (by exists (x :: ls)).
  assert (entries c3 = (k, v) :: entries c) as Hes3.
  { rewrite (entries_chain _ _ Hc3), (entries_chain _ _ Hc).
    cbn [nodes c3 with_size with_nodes]. rewrite (entries_of_ext _ _ _ Hse).
    rewrite (entries_of_cons _ _ _ (k, v)) by (by rewrite He1, decide_True).
    f_equal. apply entries_of_ext_in. intros l Hl.
    rewrite He1, decide_False; auto. }
  assert (put k v c = if decide (capacity c3 < size c3) then evictLRU c3 else Some c3) as Hput.
  { unfold put, make_shared. rewrite Hm. fold x. fold h1. fold c1.
    rewrite Hadd. done. }
  rewrite Hput. clear Hput.
  cbn [capacity size c3 c1 with_size with_map with_nodes].
  case_decide as Hcap.
  - destruct (evictLRU_spec c3 Hwf3) as (es & e & c' & Hes & Hev & Hwf' & Hes' & _ & Hsz' & Hcap' & Hh' & Hm').
    { cbn [size c3 with_size]. lia. }
    { by rewrite Hes3. }
    exists c'. rewrite Hes3 in Hes. split_and!; try done.
    rewrite Hes, Hes'. symmetry. apply removelast_last.
  - exists c3. split_and!; done.
Qed.

(** ** The constructor *)

Lemma ThreadSafeLRU_zero (dk : K) (dv : V) :
  ThreadSafeLRU dk dv (Some 0) = Some (Threw invalid_argument).
Proof. done. Qed.

Lemma ThreadSafeLRU_new (dk : K) (dv : V) o :
  default default_capacity o ≠ 0 →
  ∃ c, ThreadSafeLRU dk dv o = Some (Returned c) ∧
       WF c ∧ entries c = [] ∧ map c = ∅ ∧
       capacity c = default default_capacity o ∧
       size c = 0 ∧ hits c = 0 ∧ misses c = 0.
Proof.
  intros Hne. unfold ThreadSafeLRU, make_shared.
  rewrite decide_False by done.
  generalize (default default_capacity o). intros cap.
  set (hd := fresh (dom (∅ : gmap loc (@Node K V)))).
  set (h1 := <[hd := mkNode dk dv None None]> (∅ : gmap loc (@Node K V))).
  set (tl := fresh (dom h1)).
  assert (tl ≠ hd) as Hne'.
  { intros E. apply (is_fresh (dom h1)). fold tl. rewrite E.
    unfold h1. rewrite dom_insert. set_solver. }
  unfold set_next, set_prev, h1.
  repeat (simplify_map_eq; simpl).
  eexists. split; [reflexivity|].
  assert (chain (mkCache
     (<[tl := mkNode dk dv None (Some hd)]>
        (<[hd := mkNode dk dv (Some tl) None]>
           (<[tl := mkNode dk dv None None]>
              (<[hd := mkNode dk dv None None]> ∅)))) cap 0 ∅ hd tl 0 0) []) as Hc.
  { split; cbn [head tail nodes app].
    - apply NoDup_cons. split; [|apply NoDup_singleton].
      rewrite list_elem_of_singleton. congruence.
    - rewrite linked_cons. split_and!; [| |done].
      + unfold nextf. by simplify_map_eq.
      + unfold prevf. by simplify_map_eq. }
  split_and!; try done.
  - exists []. split; [done|]. intros k l. cbn [map].
    rewrite lookup_empty, elem_of_nil. split; [done|tauto].
Qed.

(** ** The checks decide what they check *)

Lemma linkedb_spec h ls : linkedb h ls = true ↔ linked h ls.
Proof.
  induction ls as [|a ls IH]; [done|].
  destruct ls as [|b ls]; [done|].
  rewrite linked_cons, <-IH.
  change (linkedb h (a :: b :: ls))
    with (bool_decide (nextf h a = Some b) && bool_decide (prevf h b = Some a) &&
          linkedb h (b :: ls)).
  rewrite !andb_true_iff, !bool_decide_eq_true. tauto.
Qed.

Lemma chainb_spec c ls : chainb c ls = true ↔ chain c ls.
Proof.
  unfold chainb. rewrite andb_true_iff, bool_decide_eq_true, linkedb_spec.
  split; [by intros [? ?]|by intros [? ?]].
Qed.

Lemma indexedb_spec c ls : indexedb c ls = true ↔ indexed c ls.
Proof.
  unfold indexedb. rewrite andb_true_iff, bool_decide_eq_true, forallb_forall.
  split.
  - intros [Hfwd Hback] k l. split.
    + intros Hm. by apply (Hfwd k l).
    + intros [Hin Hk]. apply list_elem_of_In, Hback in Hin.
      unfold points_back in Hin.
      destruct (entry_at (nodes c) l) as [[k' v]|]; [|done].
      simpl in *. apply bool_decide_eq_true in Hin. congruence.
  - intros Hi. split.
    + intros k l Hm. by apply Hi.
    + intros l Hin%list_elem_of_In. unfold points_back.
      destruct (entry_at (nodes c) l) as [[k v]|] eqn:He; [|done].
      apply bool_decide_eq_true, Hi. by rewrite He.
Qed.

Lemma WFb_spec c : WFb c = true ↔ WF c.
Proof.
  unfold WFb. rewrite andb_true_iff, chainb_spec, indexedb_spec. split.
  - intros [? ?]. by exists (order c).
  - intros (ls & Hc & Hi). by rewrite (order_chain _ _ Hc).
Qed.

Lemma Invb_spec c : Invb c = true ↔ Inv c.
Proof.
  unfold Invb, Inv, Unsigned.in_range.
  rewrite !andb_true_iff, !bool_decide_eq_true, WFb_spec. tauto.
Qed.

(** ** Every call completes and keeps index and list in agreement *)

Lemma WF_step c o :
  WF c → ∃ c', step o c = Some c' ∧ WF c' ∧ capacity c' = capacity c.
Proof.
  intros Hwf. destruct o as [k|k v|k|k]; simpl.
  - destruct (map c !! k) as [x|] eqn:Hm.
    + destruct (get_hit_spec c k x Hwf Hm)
        as (? & ? & ? & c' & _ & -> & ? & _ & _ & _ & ? & _).
      by exists c'.
    + rewrite (get_miss_spec c k Hm). simpl. eexists. split; [done|].
      split; [|done]. by eapply WF_same; [| | | |exact Hwf].
  - destruct (map c !! k) as [x|] eqn:Hm.
    + destruct (put_hit_spec c k v x Hwf Hm)
        as (? & ? & ? & c' & _ & -> & ? & _ & _ & _ & ? & _).
      by exists c'.
    + destruct (put_new_spec c k v Hwf Hm) as (c' & -> & ? & ? & _).
      by exists c'.
  - destruct (map c !! k) as [x|] eqn:Hm.
    + destruct (remove_hit_spec c k x Hwf Hm)
        as (? & ? & ? & c' & _ & -> & ? & _ & _ & _ & ? & _).
      by exists c'.
    + unfold remove. rewrite Hm. simpl. by exists c.
  - by exists c.
Qed.

Lemma WF_run c ops :
  WF c → ∃ c', run ops c = Some c' ∧ WF c' ∧ capacity c' = capacity c.
Proof.
  revert c. induction ops as [|o ops IH]; intros c Hwf; [by exists c|].
  destruct (WF_step c o Hwf) as (c1 & Hs & Hwf1 & Hc1).
  destruct (IH c1 Hwf1) as (c' & Hr & Hwf' & Hc').
  exists c'. simpl. rewrite Hs. simpl. split_and!; [done|done|congruence].
Qed.

Lemma constructed_Some (r : option (outcome (@Cache K _ _ V))) c :
  constructed r = Some c → r = Some (Returned c).
Proof. destruct r as [[c'|e]|]; simpl; congruence. Qed.

Lemma run_cons (o : @Op K V) ops c : run (o :: ops) c = step o c ≫= run ops.
Proof. done. Qed.

Lemma step_Put (k : K) (v : V) c : step (Put k v) c = put k v c.
Proof. done. Qed.

Lemma run_app (ops1 ops2 : list (@Op K V)) c :
  run (ops1 ++ ops2) c = run ops1 c ≫= run ops2.
Proof.
  revert c. induction ops1 as [|o ops1 IH]; intros c; [done|].
  simpl. destruct (step o c) as [c1|]; simpl; [apply IH|done].
Qed.

(** ** The invariant of the class *)

Lemma Inv_WF c : Inv c → WF c.
Proof. by intros [? _]. Qed.

Lemma Inv_new (dk : K) (dv : V) o c :
  Unsigned.in_range (default default_capacity o) →
  ThreadSafeLRU dk dv o = Some (Returned c) → Inv c.
Proof.
  intros Hr Hnew. destruct (decide (default default_capacity o = 0)) as [E|Hne].
  - unfold ThreadSafeLRU in Hnew. by rewrite decide_True in Hnew.
  - destruct (ThreadSafeLRU_new dk dv o Hne)
      as (c' & Hc' & Hwf & Hes & _ & Hcap & Hsz & _).
    assert (c' = c) as -> by congruence.
    split_and!; [done|by rewrite Hes, Hsz|lia|lia|by rewrite Hcap].
Qed.

(** With [capacity] below [UINT_MAX], [put] of a new key keeps the
    invariant; the entries are the new one followed by the old ones, cut
    to [capacity]. *)
Lemma put_new_Inv c k v :
  Inv c → capacity c < Unsigned.UINT_MAX → map c !! k = None →
  ∃ c', put k v c = Some c' ∧ Inv c' ∧
        entries c' = take (N.to_nat (capacity c)) ((k, v) :: entries c) ∧
        capacity c' = capacity c ∧ hits c' = hits c ∧ misses c' = misses c.
Proof.
  intros (Hwf & Hsz & Hle & Hpos & Hr) Hmax Hm.
  destruct (put_new_spec c k v Hwf Hm) as (c' & Hput & Hwf' & Hcap & Hh & Hmi & Hcase).
  rewrite UnsignedFacts.incr_small in Hcase by lia.
  exists c'. case_decide as Hov.
  - destruct Hcase as [Hes Hsz'].
    rewrite UnsignedFacts.decr_pos in Hsz'
      by (unfold Unsigned.in_range in *; rewrite UnsignedFacts.UINT_MAX_eq in Hmax;
          rewrite ?UnsignedFacts.modulus_eq in *; lia).
    assert (length (entries c) = N.to_nat (capacity c)) as Hlen by lia.
    assert (entries c' = take (N.to_nat (capacity c)) ((k, v) :: entries c)) as Hes'.
    { rewrite Hes, removelast_firstn_len. simpl length. by rewrite Hlen. }
    split_and!; try done. split_and!; try (rewrite ?Hcap; done).
    + rewrite Hsz', Hes', length_take. simpl length. lia.
    + rewrite Hcap, Hsz'. lia.
  - destruct Hcase as [Hes Hsz'].
    assert (entries c' = take (N.to_nat (capacity c)) ((k, v) :: entries c)) as Hes'.
    { rewrite Hes, take_ge; [done|]. simpl length. lia. }
    split_and!; try done. split_and!; try (rewrite ?Hcap; done).
    + rewrite Hsz', Hes. simpl length. lia.
    + rewrite Hcap, Hsz'. lia.
Qed.

Lemma Inv_step c o :
  Inv c → capacity c < Unsigned.UINT_MAX →
  ∃ c', step o c = Some c' ∧ Inv c' ∧ capacity c' = capacity c.
Proof.
  intros HI Hmax. pose proof HI as (Hwf & Hsz & Hle & Hpos & Hr).
  destruct o as [k|k v|k|k]; simpl.
  - destruct (map c !! k) as [x|] eqn:Hm.
    + destruct (get_hit_spec c k x Hwf Hm)
        as (es1 & v & es2 & c' & Hes & -> & Hwf' & Hes' & _ & Hsz' & Hcap & _).
      exists c'. simpl. split_and!; try done. split_and!; try (rewrite ?Hcap; done).
      * rewrite Hsz', Hsz, Hes, Hes'. cbn [length]. rewrite !length_app.
        cbn [length]. lia.
      * by rewrite Hsz', Hcap.
    + rewrite (get_miss_spec c k Hm). simpl. eexists. split; [done|].
      split; [|done]. split_and!; try done.
      by eapply WF_same; [| | | |exact Hwf].
  - destruct (map c !! k) as [x|] eqn:Hm.
    + destruct (put_hit_spec c k v x Hwf Hm)
        as (es1 & v0 & es2 & c' & Hes & -> & Hwf' & Hes' & _ & Hsz' & Hcap & _).
      exists c'. split_and!; try done. split_and!; try (rewrite ?Hcap; done).
      * rewrite Hsz', Hsz, Hes, Hes'. cbn [length]. rewrite !length_app.
        cbn [length]. lia.
      * by rewrite Hsz', Hcap.
    + destruct (put_new_Inv c k v HI Hmax Hm) as (c' & -> & ? & _ & ? & _).
      by exists c'.
  - destruct (map c !! k) as [x|] eqn:Hm.
    + destruct (remove_hit_spec c k x Hwf Hm)
        as (es1 & v & es2 & c' & Hes & -> & Hwf' & Hes' & _ & Hsz' & Hcap & _).
      rewrite Hes, length_app in Hsz. simpl in Hsz.
      rewrite UnsignedFacts.decr_pos in Hsz'
        by (unfold Unsigned.in_range in *; lia).
      exists c'. simpl. split_and!; try done. split_and!; try (rewrite ?Hcap; done).
      * rewrite Hsz', Hes', length_app. lia.
      * rewrite Hsz', Hcap. lia.
    + unfold remove. rewrite Hm. simpl. by exists c.
  - by exists c.
Qed.

Lemma Inv_run c ops :
  Inv c → capacity c < Unsigned.UINT_MAX →
  ∃ c', run ops c = Some c' ∧ Inv c' ∧ capacity c' = capacity c.
Proof.
  revert c. induction ops as [|o ops IH]; intros c HI Hmax; [by exists c|].
  destruct (Inv_step c o HI Hmax) as (c1 & Hs & HI1 & Hc1).
  destruct (IH c1 HI1) as (c' & Hr & HI' & Hc'); [by rewrite Hc1|].
  exists c'. simpl. rewrite Hs. simpl. split_and!; [done|done|congruence].
Qed.

(** ** Further facts about well-formed caches *)

(** The last entry is the node before the [tail] sentinel. *)
Lemma WF_last c es e :
  WF c → entries c = es ++ [e] →
  ∃ l, prevf (nodes c) (tail c) = Some l ∧ entry_at (nodes c) l = Some e.
Proof.
  intros (ls & Hc & Hi) Hes. rewrite (entries_chain _ _ Hc) in Hes.
  destruct ls as [|x pre _] using rev_ind.
  { by destruct es. }
  pose proof (chain_linked _ _ Hc) as Hl.
  rewrite <-app_assoc in Hl.
  change (head c :: pre ++ [x] ++ [tail c])
    with ((head c :: pre) ++ x :: [tail c]) in Hl.
  apply linked_app in Hl as [_ Hl]. destruct Hl as (_ & Hpt & _).
  destruct (chain_lookup c _ x Hc) as [n Hn].
  { right. apply elem_of_app. left. apply elem_of_app. right. by left. }
  assert (entry_at (nodes c) x = Some (key n, value n)) as He.
  { unfold entry_at. by rewrite Hn. }
  rewrite entries_of_app, (entries_of_cons _ _ _ _ He) in Hes.
  apply app_inj_tail in Hes as [_ <-]. by exists x.
Qed.

Lemma NoDup_fst_unique (es : list (K * V)) k v v' :
  NoDup (es.*1) → (k, v) ∈ es → (k, v') ∈ es → v = v'.
Proof.
  induction es as [|[k0 v0] es IH]; intros Hnd H1 H2.
  { by apply elem_of_nil in H1. }
  simpl in Hnd. apply NoDup_cons in Hnd as [Hk Hnd].
  apply elem_of_cons in H1 as [H1|H1]; apply elem_of_cons in H2 as [H2|H2].
  - congruence.
  - exfalso. apply Hk. injection H1 as <- <-.
    apply list_elem_of_fmap. by exists (k, v').
  - exfalso. apply Hk. injection H2 as <- <-.
    apply list_elem_of_fmap. by exists (k, v).
  - by apply IH.
Qed.

(** [get] returns the value stored under the key. *)
Lemma get_value c k v :
  WF c → (k, v) ∈ entries c → ∃ c', get k c = Some (Returned v, c').
Proof.
  intros Hwf Hin.
  assert (k ∈ keys c) as Hk.
  { apply list_elem_of_fmap. by exists (k, v). }
  apply (WF_present _ _ Hwf) in Hk as [x Hm].
  destruct (get_hit_spec c k x Hwf Hm) as (es1 & v' & es2 & c' & Hes & Hget & _).
  assert (v = v') as <-.
  { eapply NoDup_fst_unique; [apply (WF_NoDup_keys _ Hwf)|done|].
    rewrite Hes. apply elem_of_app. right. by left. }
  by exists c'.
Qed.

Lemma keys_app_cons c (es1 es2 : list (K * V)) k v :
  WF c → entries c = es1 ++ (k, v) :: es2 → (k ∉ es1.*1) ∧ (k ∉ es2.*1).
Proof.
  intros Hwf Hes. pose proof (WF_NoDup_keys _ Hwf) as Hnd.
  unfold keys in Hnd. rewrite Hes, fmap_app in Hnd. simpl in Hnd.
  apply NoDup_app in Hnd as (_ & H1 & H2). apply NoDup_cons in H2 as [H2 _].
  split; [|done]. intros Hin. apply (H1 _ Hin). by left.
Qed.

(** ** Sequences of calls *)

Lemma fmap_rev {A B} (f : A → B) (l : list A) : f <$> rev l = rev (f <$> l).
Proof.
  induction l as [|a l IH]; [done|]. simpl. by rewrite fmap_app, IH.
Qed.

Lemma take_app_take {A} (n : nat) (l1 l2 : list A) :
  take n (l1 ++ take n l2) = take n (l1 ++ l2).
Proof.
  rewrite !take_app, take_take. do 2 f_equal. lia.
Qed.

Lemma puts_Inv (kvs : list (K * V)) c :
  Inv c → capacity c < Unsigned.UINT_MAX →
  NoDup (kvs.*1) → (∀ k, k ∈ kvs.*1 → k ∉ keys c) →
  ∃ c', run (puts kvs) c = Some c' ∧ Inv c' ∧ capacity c' = capacity c ∧
        entries c' = take (N.to_nat (capacity c)) (rev kvs ++ entries c).
Proof.
  revert c. induction kvs as [|[k v] kvs IH]; intros c HI Hmax Hnd Hnew.
  - exists c. split_and!; try done. simpl.
    destruct HI as (_ & Hsz & Hle & _). rewrite take_ge; [done|lia].
  - simpl in Hnd. apply NoDup_cons in Hnd as [Hk Hnd].
    assert (map c !! k = None) as Hm.
    { apply (WF_absent _ _ (Inv_WF _ HI)), Hnew. by left. }
    destruct (put_new_Inv c k v HI Hmax Hm) as (c1 & Hput & HI1 & Hes1 & Hcap1 & _).
    destruct (IH c1 HI1) as (c' & Hrun & HI' & Hcap' & Hes'); [by rewrite Hcap1|done| |].
    { intros k' Hk' Hin. unfold keys in Hin. rewrite Hes1 in Hin.
      apply list_elem_of_fmap in Hin as ([k'' v''] & -> & Hin).
      apply elem_of_take in Hin as (i & Hin & _).
      apply list_elem_of_lookup_2 in Hin.
      apply elem_of_cons in Hin as [[= -> ->]|Hin]; [done|].
      apply (Hnew k''); [by right|]. apply list_elem_of_fmap. by exists (k'', v''). }
    exists c'. simpl. rewrite Hput. simpl. split_and!; [done|done|congruence|].
    rewrite Hes', Hes1, Hcap1, take_app_take, <-app_assoc. done.
Qed.

Lemma gets_succ (k : K) n : @gets K V k (N.succ n) = Get k :: gets k n.
Proof. unfold gets. by rewrite N.iter_succ. Qed.

Lemma gets_hits c k n :
  WF c → k ∈ keys c → Unsigned.in_range (hits c) →
  ∃ c', run (gets k n) c = Some c' ∧ WF c' ∧ k ∈ keys c' ∧
        capacity c' = capacity c ∧
        hits c' = (hits c + n) mod Unsigned.modulus.
Proof.
  revert c. induction n as [|n IH] using N.peano_ind; intros c Hwf Hk Hr.
  - exists c. split_and!; try done.
    rewrite N.add_0_r. symmetry. by apply N.mod_small.
  - rewrite gets_succ. simpl.
    destruct (proj2 (WF_present _ _ Hwf) Hk) as [x Hm].
    destruct (get_hit_spec c k x Hwf Hm)
      as (es1 & v & es2 & c1 & Hes & -> & Hwf1 & Hes1 & _ & _ & Hcap1 & Hh1 & _).
    simpl.
    destruct (IH c1 Hwf1) as (c' & Hrun & Hwf' & Hk' & Hcap' & Hh').
    { unfold keys. rewrite Hes1. by left. }
    { rewrite Hh1. apply UnsignedFacts.incr_in_range. }
    exists c'. split_and!; try done.
    + congruence.
    + by rewrite Hh', Hh1, UnsignedFacts.incr_add.
Qed.

Lemma gets_misses c k n :
  WF c → k ∉ keys c → Unsigned.in_range (misses c) →
  ∃ c', run (gets k n) c = Some c' ∧ WF c' ∧ (k ∉ keys c') ∧
        capacity c' = capacity c ∧
        misses c' = (misses c + n) mod Unsigned.modulus.
Proof.
  revert c. induction n as [|n IH] using N.peano_ind; intros c Hwf Hk Hr.
  - exists c. split_and!; try done.
    rewrite N.add_0_r. symmetry. by apply N.mod_small.
  - rewrite gets_succ. simpl.
    rewrite (get_miss_spec c k (proj2 (WF_absent _ _ Hwf) Hk)). simpl.
    set (c1 := with_misses (Unsigned.incr (misses c)) c).
    assert (WF c1) as Hwf1 by (by eapply WF_same; [| | | |exact Hwf]).
    destruct (IH c1 Hwf1) as (c' & Hrun & Hwf' & Hk' & Hcap' & Hm').
    { apply (WF_absent _ _ Hwf1). by apply (WF_absent _ _ Hwf) in Hk. }
    { apply UnsignedFacts.incr_in_range. }
    exists c'. split_and!; try done.
    cbn [misses c1 with_misses] in Hm'. by rewrite Hm', UnsignedFacts.incr_add.
Qed.

(** ** A cache of capacity [UINT_MAX] *)

Lemma Counted_WF c : Counted c → WF c.
Proof. by intros [? _]. Qed.

Lemma put_new_max c k v :
  Counted c → capacity c = Unsigned.UINT_MAX → map c !! k = None →
  ∃ c', put k v c = Some c' ∧ Counted c' ∧ capacity c' = capacity c ∧
        entries c' = (k, v) :: entries c.
Proof.
  intros (Hwf & Hsz & Hpos & Hr) Hmax Hm.
  destruct (put_new_spec c k v Hwf Hm) as (c' & Hput & Hwf' & Hcap & _ & _ & Hcase).
  rewrite decide_False in Hcase.
  - destruct Hcase as [Hes Hsz']. exists c'. split_and!; try done.
    split_and!; try (rewrite ?Hcap; done).
    rewrite Hsz', Hes, Hsz. cbn [length].
    unfold Unsigned.incr. rewrite N.Div0.add_mod_idemp_l. f_equal. lia.
  - rewrite Hmax. pose proof (UnsignedFacts.incr_le_max (size c)). lia.
Qed.

Lemma Counted_step c o :
  Counted c → capacity c = Unsigned.UINT_MAX →
  ∃ c', step o c = Some c' ∧ Counted c' ∧ capacity c' = capacity c.
Proof.
  intros HI Hmax. pose proof HI as (Hwf & Hsz & Hpos & Hr).
  destruct o as [k|k v|k|k]; simpl.
  - destruct (map c !! k) as [x|] eqn:Hm.
    + destruct (get_hit_spec c k x Hwf Hm)
        as (es1 & v & es2 & c' & Hes & -> & Hwf' & Hes' & _ & Hsz' & Hcap & _).
      exists c'. simpl. split_and!; try done. split_and!; try (rewrite ?Hcap; done).
      rewrite Hsz', Hsz, Hes, Hes'. cbn [length]. rewrite !length_app.
      cbn [length]. f_equal. lia.
    + rewrite (get_miss_spec c k Hm). simpl. eexists. split; [done|].
      split; [|done]. split_and!; try done.
      by eapply WF_same; [| | | |exact Hwf].
  - destruct (map c !! k) as [x|] eqn:Hm.
    + destruct (put_hit_spec c k v x Hwf Hm)
        as (es1 & v0 & es2 & c' & Hes & -> & Hwf' & Hes' & _ & Hsz' & Hcap & _).
      exists c'. split_and!; try done. split_and!; try (rewrite ?Hcap; done).
      rewrite Hsz', Hsz, Hes, Hes'. cbn [length]. rewrite !length_app.
      cbn [length]. f_equal. lia.
    + destruct (put_new_max c k v HI Hmax Hm) as (c' & -> & ? & ? & _).
      by exists c'.
  - destruct (map c !! k) as [x|] eqn:Hm.
    + destruct (remove_hit_spec c k x Hwf Hm)
        as (es1 & v & es2 & c' & Hes & -> & Hwf' & Hes' & _ & Hsz' & Hcap & _).
      exists c'. simpl. split_and!; try done. split_and!; try (rewrite ?Hcap; done).
      rewrite Hsz', Hsz, Hes, Hes', !length_app. cbn [length].
      unfold Unsigned.decr.
      rewrite <-N.add_sub_assoc by (rewrite UnsignedFacts.modulus_eq; lia).
      rewrite N.Div0.add_mod_idemp_l.
      replace (N.of_nat (length es1 + S (length es2)) + (Unsigned.modulus - 1))
        with (N.of_nat (length es1 + length es2) + 1 * Unsigned.modulus)
        by (rewrite UnsignedFacts.modulus_eq; lia).
      by rewrite N.Div0.mod_add.
    + unfold remove. rewrite Hm. simpl. by exists c.
  - by exists c.
Qed.

Lemma Counted_run c ops :
  Counted c → capacity c = Unsigned.UINT_MAX →
  ∃ c', run ops c = Some c' ∧ Counted c' ∧ capacity c' = capacity c.
Proof.
  revert c. induction ops as [|o ops IH]; intros c HI Hmax; [by exists c|].
  destruct (Counted_step c o HI Hmax) as (c1 & Hs & HI1 & Hc1).
  destruct (IH c1 HI1) as (c' & Hr & HI' & Hc'); [by rewrite Hc1|].
  exists c'. simpl. rewrite Hs. simpl. split_and!; [done|done|congruence].
Qed.

Lemma Inv_Counted c : Inv c → Counted c.
Proof.
  intros (Hwf & Hsz & Hle & Hpos & Hr). split_and!; try done.
  rewrite <-Hsz. symmetry. apply N.mod_small. unfold Unsigned.in_range in Hr. lia.
Qed.

(** What a sequence of calls on a fresh cache leaves satisfies the
    invariant, when the capacity is below [UINT_MAX]. *)
Lemma scenario_Inv (dk : K) (dv : V) cap ops c :
  cap < Unsigned.UINT_MAX →
  constructed (ThreadSafeLRU dk dv (Some cap)) ≫= run ops = Some c → Inv c.
Proof.
  intros Hmax Hrun. apply bind_Some in Hrun as (c0 & Hnew & Hrun).
  apply constructed_Some in Hnew.
  assert (Inv c0) as HI0.
  { eapply Inv_new; [|exact Hnew]. simpl. unfold Unsigned.in_range.
    rewrite UnsignedFacts.UINT_MAX_eq in Hmax. rewrite UnsignedFacts.modulus_eq. lia. }
  assert (capacity c0 = cap) as Hcap.
  { destruct (decide (cap = 0)) as [->|Hne].
    - by rewrite ThreadSafeLRU_zero in Hnew.
    - destruct (ThreadSafeLRU_new dk dv (Some cap) Hne)
        as (c0' & Hc0 & _ & _ & _ & Hcap & _).
      simpl in Hcap. congruence. }
  destruct (Inv_run c0 ops HI0) as (c' & Hrun' & HI & _); [by rewrite Hcap|].
  congruence.
Qed.

(** [put] leaves its key at the front of the list, whether the key was
    there before or not. *)
Lemma put_front c k v :
  Inv c → ∃ c' rest, put k v c = Some c' ∧ WF c' ∧ entries c' = (k, v) :: rest.
Proof.
  intros (Hwf & Hsz & Hle & Hpos & Hr).
  destruct (map c !! k) as [x|] eqn:Hm.
  - destruct (put_hit_spec c k v x Hwf Hm)
      as (es1 & v0 & es2 & c' & _ & Hput & Hwf' & Hes' & _).
    by exists c', (es1 ++ es2).
  - destruct (put_new_spec c k v Hwf Hm) as (c' & Hput & Hwf' & _ & _ & _ & Hcase).
    case_decide as Hov.
    + destruct Hcase as [Hes _].
      destruct (entries c) as [|e es] eqn:E.
      * exfalso. simpl in Hsz. rewrite Hsz in Hov, Hle.
        change (Unsigned.incr (N.of_nat 0)) with 1 in Hov. lia.
      * exists c', (removelast (e :: es)). by rewrite Hes.
    + destruct Hcase as [Hes _]. by exists c', (entries c).
Qed.

End Proofs.

(** * Properties of the cache *)

Section Claims.

Context {K : Type} `{!EqDecision K, !Countable K}.
Context {V : Type}.

Implicit Types (c : @Cache K _ _ V) (k : K) (v : V).

(** C6. [contains(key)] returns true exactly when the key is present, in
    the index and, on a well-formed cache, on the recency list; it returns
    the cache as it was: entries, recency order, size, hits and misses are
    the same, after one call and after any number of calls. *)
Theorem contains_is_a_peek c k :
  ((contains k c).1 = true ↔ is_Some (map c !! k)) ∧
  (WF c → ((contains k c).1 = true ↔ k ∈ keys c)) ∧
  (contains k c).2 = c ∧
  ∀ n, let c' := contains_many k n c in
       c' = c ∧ entries c' = entries c ∧ order c' = order c ∧
       size c' = size c ∧ hits c' = hits c ∧ misses c' = misses c.
Proof.
  assert ((contains k c).1 = true ↔ is_Some (map c !! k)) as Hb.
  { unfold contains. simpl. rewrite bool_decide_eq_true.
    by rewrite not_eq_None_Some. }
  split_and!; [done| |done|].
  - intros Hwf. by rewrite Hb, (WF_present _ _ Hwf).
  - intros n. assert (contains_many k n c = c) as ->; [|done].
    induction n as [|n IH]; [done|].
    change (contains_many k (S n) c) with (contains k (contains_many k n c)).2.
    by rewrite IH.
Qed.

(** C7. Construction throws [invalid_argument] exactly when the capacity
    asked for is 0, and then there is no cache; otherwise the cache starts
    empty with [size], [hits] and [misses] 0 and the capacity asked for,
    which no sequence of calls changes. *)
Theorem construction_checks_capacity (dk : K) (dv : V) (cap : N) :
  (ThreadSafeLRU dk dv (Some cap) = Some (Threw invalid_argument) ↔ cap = 0) ∧
  (cap = 0 → ∀ c, ThreadSafeLRU dk dv (Some cap) ≠ Some (Returned c)) ∧
  (cap ≠ 0 →
     ∃ c, ThreadSafeLRU dk dv (Some cap) = Some (Returned c) ∧
          size c = 0 ∧ hits c = 0 ∧ misses c = 0 ∧ capacity c = cap ∧
          entries c = [] ∧ map c = ∅ ∧ WF c ∧
          ∀ ops, ∃ c', run ops c = Some c' ∧ capacity c' = cap).
Proof.
  split_and!.
  - split.
    + intros Hnew. destruct (decide (cap = 0)) as [|Hne]; [done|].
      destruct (ThreadSafeLRU_new dk dv (Some cap) Hne) as (c & Hc & _).
      congruence.
    + intros ->. apply ThreadSafeLRU_zero.
  - intros -> c. by rewrite ThreadSafeLRU_zero.
  - intros Hne.
    destruct (ThreadSafeLRU_new dk dv (Some cap) Hne)
      as (c & Hc & Hwf & Hes & Hm & Hcap & Hsz & Hh & Hmi).
    exists c. split_and!; try done.
    intros ops. destruct (WF_run c ops Hwf) as (c' & Hrun & _ & Hcap').
    exists c'. split; [done|]. by rewrite Hcap'.
Qed.

(** C10. Construction without a capacity argument succeeds, and the cache
    has capacity 10. *)
Theorem default_capacity_is_10 (dk : K) (dv : V) :
  ∃ c, ThreadSafeLRU dk dv None = Some (Returned c) ∧
       capacity c = 10 ∧ size c = 0 ∧ entries c = [] ∧ Inv c.
Proof.
  destruct (ThreadSafeLRU_new dk dv None) as (c & Hc & Hwf & Hes & _ & Hcap & Hsz & _);
    [done|].
  exists c. split_and!; try done.
  eapply Inv_new; [|done]. done.
Qed.

(** C3, as amended. On a well-formed cache [get(key)] throws
    [out_of_range] exactly when the key is absent.  On a present key it
    returns the stored value, moves the entry to the front of the recency
    list and increments [hits] as an [unsigned]: by 1 modulo [2^32], which
    is by exactly 1 unless [hits] is [UINT_MAX]; [misses] stays.  On an
    absent key entries and recency order stay and [misses] is incremented
    in the same way; [hits] stays.  Either way [size] and [capacity]
    stay. *)
Theorem get_hit_or_miss c k :
  WF c →
  ∃ r c', get k c = Some (r, c') ∧ WF c' ∧
    (r = Threw out_of_range ↔ k ∉ keys c) ∧
    (k ∈ keys c →
       ∃ es1 v es2,
         entries c = es1 ++ (k, v) :: es2 ∧ r = Returned v ∧
         entries c' = (k, v) :: es1 ++ es2 ∧
         hits c' = Unsigned.incr (hits c) ∧
         (hits c < Unsigned.UINT_MAX → hits c' = hits c + 1) ∧
         misses c' = misses c) ∧
    (k ∉ keys c →
       entries c' = entries c ∧ order c' = order c ∧ map c' = map c ∧
       misses c' = Unsigned.incr (misses c) ∧
       (misses c < Unsigned.UINT_MAX → misses c' = misses c + 1) ∧
       hits c' = hits c) ∧
    size c' = size c ∧ capacity c' = capacity c.
Proof.
  intros Hwf. destruct (map c !! k) as [x|] eqn:Hm.
  - assert (k ∈ keys c) as Hk by (apply (WF_present _ _ Hwf); eauto).
    destruct (get_hit_spec c k x Hwf Hm)
      as (es1 & v & es2 & c' & Hes & Hget & Hwf' & Hes' & Hmap & Hsz & Hcap & Hh & Hmi).
    exists (Returned v), c'. split_and!; try done.
    + intros _. exists es1, v, es2. split_and!; try done.
      intros Hlt. rewrite Hh. by apply UnsignedFacts.incr_small.
  - assert (k ∉ keys c) as Hk by (by apply (WF_absent _ _ Hwf)).
    rewrite (get_miss_spec c k Hm).
    exists (Threw out_of_range), (with_misses (Unsigned.incr (misses c)) c).
    split_and!; try done.
    + by eapply WF_same; [| | | |exact Hwf].
    + intros _. split_and!; try done.
      intros Hlt. by apply UnsignedFacts.incr_small.
Qed.

(** C4. On a cache that satisfies the invariant, [put(k, v2)] on a
    present key replaces the value, moves the entry to the front and
    leaves [size] as it was; and after [put(k, v1)] a [put(k, v2)] leaves
    [size] as the first [put] left it, and [get(k)] then returns [v2]. *)
Theorem put_existing_updates_in_place c k v1 v2 :
  Inv c →
  (k ∈ keys c →
     ∃ es1 v0 es2 c',
       entries c = es1 ++ (k, v0) :: es2 ∧
       put k v2 c = Some c' ∧
       entries c' = (k, v2) :: es1 ++ es2 ∧
       size c' = size c ∧ Inv c') ∧
  (∃ c1 c2 c3,
     put k v1 c = Some c1 ∧ put k v2 c1 = Some c2 ∧
     size c2 = size c1 ∧ length (entries c2) = length (entries c1) ∧
     get k c2 = Some (Returned v2, c3)).
Proof.
  intros HI. pose proof HI as (Hwf & Hsz & Hle & Hpos & Hr). split.
  - intros Hk. destruct (proj2 (WF_present _ _ Hwf) Hk) as [x Hm].
    destruct (put_hit_spec c k v2 x Hwf Hm)
      as (es1 & v0 & es2 & c' & Hes & Hput & Hwf' & Hes' & _ & Hsz' & Hcap & _).
    exists es1, v0, es2, c'. split_and!; try done.
    split_and!; try (rewrite ?Hsz', ?Hcap; done).
    rewrite Hsz', Hsz, Hes, Hes'. cbn [length]. rewrite !length_app.
    cbn [length]. lia.
  - destruct (put_front c k v1 HI) as (c1 & rest & Hput1 & Hwf1 & Hes1).
    assert (is_Some (map c1 !! k)) as [x Hm1].
    { apply (WF_present _ _ Hwf1). unfold keys. rewrite Hes1. by left. }
    destruct (put_hit_spec c1 k v2 x Hwf1 Hm1)
      as (es1 & v0 & es2 & c2 & Hes & Hput2 & Hwf2 & Hes2 & _ & Hsz2 & _).
    destruct (get_value c2 k v2 Hwf2) as [c3 Hget].
    { rewrite Hes2. by left. }
    exists c1, c2, c3. split_and!; try done.
    rewrite Hes, Hes2. cbn [length]. rewrite !length_app. cbn [length]. lia.
Qed.


(** A [put] of a new key that makes [size] exceed [capacity] evicts the
    last entry of the list, the node before [tail], and nothing else. *)
Lemma put_new_at_capacity c k v :
  Inv c → k ∉ keys c → capacity c < Unsigned.incr (size c) →
  ∃ es e l c',
    entries c = es ++ [e] ∧
    prevf (nodes c) (tail c) = Some l ∧ entry_at (nodes c) l = Some e ∧
    put k v c = Some c' ∧
    entries c' = (k, v) :: es ∧
    (e.1 ∉ keys c') ∧ map c' !! e.1 = None ∧
    length (entries c') = length (entries c) ∧
    size c' = size c ∧ size c' ≤ capacity c' ∧ Inv c'.
Proof.
  intros HI Hk Hov. pose proof HI as (Hwf & Hsz & Hle & Hpos & Hr).
  assert (size c < Unsigned.UINT_MAX) as Hlt.
  { destruct (decide (size c < Unsigned.UINT_MAX)) as [|Hge]; [done|].
    assert (size c = Unsigned.UINT_MAX) as E.
    { unfold Unsigned.in_range in Hr. rewrite UnsignedFacts.modulus_eq in Hr.
      rewrite UnsignedFacts.UINT_MAX_eq in *. lia. }
    rewrite E, UnsignedFacts.incr_max in Hov. lia. }
  pose proof Hov as Hov'. rewrite UnsignedFacts.incr_small in Hov' by done.
  assert (map c !! k = None) as Hm by (by apply (WF_absent _ _ Hwf)).
  destruct (put_new_spec c k v Hwf Hm) as (c' & Hput & Hwf' & Hcap & _ & _ & Hcase).
  rewrite decide_True in Hcase by done. destruct Hcase as [Hes' Hsz'].
  rewrite UnsignedFacts.decr_incr in Hsz' by done.
  destruct (entries c) as [|e0 es0 _] eqn:Hes using rev_ind.
  { simpl in Hsz. lia. }
  rename e0 into e, es0 into es. rewrite <-Hes in Hsz.
  destruct (WF_last c es e Hwf Hes) as (l & Hl & Hel).
  change ((k, v) :: es ++ [e]) with (((k, v) :: es) ++ [e]) in Hes'.
  rewrite removelast_last in Hes'.
  assert (length (entries c') = length (entries c)) as Hlen.
  { rewrite Hes', Hes, length_app. simpl. lia. }
  destruct (keys_app_cons c es [] e.1 e.2 Hwf) as [Hne _].
  { rewrite Hes. by destruct e. }
  assert (e.1 ∉ keys c') as Hgone.
  { unfold keys. rewrite Hes'. simpl. apply not_elem_of_cons. split; [|done].
    intros E. apply Hk. unfold keys. rewrite Hes, <-E, fmap_app.
    apply elem_of_app. right. by left. }
  exists es, e, l, c'. split_and!; try done.
  - by apply (WF_absent _ _ Hwf').
  - by rewrite <-Hes.
  - rewrite Hsz', Hcap. done.
  - split_and!; try (rewrite ?Hcap; done).
    + by rewrite Hsz', Hlen.
    + by rewrite Hsz', Hcap.
Qed.

(** C8, as amended. From a fresh cache of capacity [cap], with
    [0 < cap < UINT_MAX], [put] of [cap + 1] distinct keys leaves exactly
    [cap] keys: the [cap] most recently used ones, that is, all but the
    first one inserted, most recent first. *)
Theorem one_more_than_capacity (dk : K) (dv : V) cap (kvs : list (K * V)) c0 :
  0 < cap → cap < Unsigned.UINT_MAX →
  NoDup (kvs.*1) → N.of_nat (length kvs) = cap + 1 →
  ThreadSafeLRU dk dv (Some cap) = Some (Returned c0) →
  ∃ c, run (puts kvs) c0 = Some c ∧ Inv c ∧
       N.of_nat (length (keys c)) = cap ∧
       entries c = take (N.to_nat cap) (rev kvs) ∧
       keys c = take (N.to_nat cap) (rev (kvs.*1)) ∧
       keys c = rev (List.tl (kvs.*1)).
Proof.
  intros Hpos Hmax Hnd Hlen Hnew.
  destruct (ThreadSafeLRU_new dk dv (Some cap)) as (c0' & Hc0 & _ & Hes0 & _ & Hcap0 & _);
    [simpl; lia|].
  assert (c0' = c0) as -> by congruence. simpl in Hcap0.
  assert (Inv c0) as HI0.
  { eapply Inv_new; [|done]. simpl. unfold Unsigned.in_range.
    rewrite UnsignedFacts.UINT_MAX_eq in Hmax. rewrite UnsignedFacts.modulus_eq. lia. }
  destruct (puts_Inv kvs c0 HI0) as (c & Hrun & HI & Hcap & Hes); [by rewrite Hcap0|done| |].
  { intros k _. unfold keys. rewrite Hes0. apply not_elem_of_nil. }
  rewrite Hes0, app_nil_r, Hcap0 in Hes.
  assert (keys c = take (N.to_nat cap) (rev (kvs.*1))) as Hks.
  { unfold keys. by rewrite Hes, fmap_take, fmap_rev. }
  exists c. split_and!; try done.
  - rewrite Hks, length_take, length_rev, length_fmap. lia.
  - rewrite Hks. destruct kvs as [|[k v] kvs]; [simpl in Hlen; lia|].
    simpl. rewrite take_app_length'; [done|].
    rewrite length_rev, length_fmap. simpl in Hlen. lia.
Qed.

(** X1. The state of a cache after any sequence of calls: every call
    completes, index and list agree, [size] is within [capacity] and equals
    the number of entries modulo [2^32]; with a capacity below [UINT_MAX]
    it is the number of entries, and this number is within [capacity]. *)
Theorem reachable_states (dk : K) (dv : V) cap ops c0 :
  Unsigned.in_range cap →
  ThreadSafeLRU dk dv (Some cap) = Some (Returned c0) →
  ∃ c, run ops c0 = Some c ∧ capacity c = cap ∧
       WF c ∧
       dom (map c) = list_to_set (keys c) ∧ NoDup (keys c) ∧
       base.size (map c) = length (keys c) ∧
       NoDup (order c) ∧ (∀ l, l ∈ order c ↔ ∃ k, map c !! k = Some l) ∧
       size c ≤ capacity c ∧
       size c = N.of_nat (length (entries c)) mod Unsigned.modulus ∧
       (cap < Unsigned.UINT_MAX →
          size c = N.of_nat (length (entries c)) ∧ Inv c).
Proof.
  intros Hr Hnew.
  assert (cap ≠ 0) as Hne.
  { intros ->. by rewrite ThreadSafeLRU_zero in Hnew. }
  pose proof (Inv_new dk dv (Some cap) c0 Hr Hnew) as HI0.
  destruct (ThreadSafeLRU_new dk dv (Some cap) Hne) as (c0' & Hc0 & _ & _ & _ & Hcap0 & _).
  assert (c0' = c0) as -> by congruence. simpl in Hcap0.
  assert (∃ c, run ops c0 = Some c ∧ Counted c ∧ capacity c = cap ∧
               size c ≤ capacity c ∧
               (cap < Unsigned.UINT_MAX → Inv c)) as (c & Hrun & HC & Hcap & Hle & HInv).
  { destruct (decide (cap < Unsigned.UINT_MAX)) as [Hlt|Hge].
    - destruct (Inv_run c0 ops HI0) as (c & Hrun & HI & Hcap); [by rewrite Hcap0|].
      exists c. split_and!; [done|by apply Inv_Counted|congruence| |done].
      by destruct HI as (_ & _ & ? & _).
    - assert (cap = Unsigned.UINT_MAX) as Hmax.
      { unfold Unsigned.in_range in Hr. rewrite UnsignedFacts.modulus_eq in Hr.
        rewrite UnsignedFacts.UINT_MAX_eq in *. lia. }
      destruct (Counted_run c0 ops (Inv_Counted _ HI0)) as (c & Hrun & HC & Hcap);
        [congruence|].
      exists c. split_and!; [done|done|congruence| |done].
      destruct HC as (_ & -> & _). rewrite Hcap, Hcap0, Hmax.
      pose proof (N.mod_lt (N.of_nat (length (entries c))) Unsigned.modulus) as Hlt.
      rewrite UnsignedFacts.modulus_eq in Hlt |- *.
      rewrite UnsignedFacts.UINT_MAX_eq. lia. }
  pose proof (Counted_WF _ HC) as Hwf.
  destruct (WF_order _ Hwf) as [Hnd Hord].
  exists c. split_and!; try done.
  - by apply WF_dom.
  - by apply WF_NoDup_keys.
  - by apply WF_map_size.
  - by destruct HC as (_ & ? & _).
  - intros Hlt. split; [|by apply HInv]. by destruct (HInv Hlt) as (_ & ? & _).
Qed.

End Claims.

(** X15. On a cache that satisfies the invariant, a [put] of a new key
    after which [size], incremented as a 32-bit [unsigned], exceeds
    [capacity] (the cache is full and [capacity] is below [UINT_MAX]) evicts
    exactly one entry, the last of the recency list (the node before the
    [tail] sentinel), and [size] is within [capacity] when [put] returns.
    With capacity 3, after [put(a,1)], [put(b,2)], [put(c,3)], [get(a)], the
    call [put(d,4)] evicts [b], and [a], [c], [d] remain. *)
Theorem put_evicts_least_recently_used :
  (∀ (K : Type) (EqK : EqDecision K) (CK : Countable K) (V : Type)
     (c : @Cache K EqK CK V) (k : K) (v : V),
     Inv c → k ∉ keys c → capacity c < Unsigned.incr (size c) →
     ∃ es e l c',
       entries c = es ++ [e] ∧
       prevf (nodes c) (tail c) = Some l ∧ entry_at (nodes c) l = Some e ∧
       put k v c = Some c' ∧
       entries c' = (k, v) :: es ∧
       (e.1 ∉ keys c') ∧ map c' !! e.1 = None ∧
       length (entries c') = length (entries c) ∧
       size c' = size c ∧ size c' ≤ capacity c' ∧ Inv c') ∧
  (∃ c0 c4 c5,
     new_cache 3 = Some (Returned c0) ∧
     run [Put "a" 1; Put "b" 2; Put "c" 3; Get "a"]%string c0 = Some c4 ∧
     entries c4 = [("a", 1); ("c", 3); ("b", 2)]%string ∧
     put "d"%string 4 c4 = Some c5 ∧
     entries c5 = [("d", 4); ("a", 1); ("c", 3)]%string ∧
     size c5 = 3 ∧
     (contains "b"%string c5).1 = false ∧
     (contains "a"%string c5).1 = true ∧
     (contains "c"%string c5).1 = true ∧
     (contains "d"%string c5).1 = true).
Proof.
  split.
  - intros K EqK CK V c k v. apply put_new_at_capacity.
  - assert ((c0 ← constructed (new_cache 3);
             c4 ← run [Put "a" 1; Put "b" 2; Put "c" 3; Get "a"]%string c0;
             c5 ← put "d"%string 4 c4;
             Some (entries c4, entries c5, size c5,
                   (contains "b"%string c5).1, (contains "a"%string c5).1,
                   (contains "c"%string c5).1, (contains "d"%string c5).1))
            = Some ([("a", 1); ("c", 3); ("b", 2)]%string,
                    [("d", 4); ("a", 1); ("c", 3)]%string, 3,
                    false, true, true, true)) as H
      by (vm_compute; reflexivity).
    apply bind_Some in H as (c0 & H0 & H).
    apply bind_Some in H as (c4 & H4 & H).
    apply bind_Some in H as (c5 & H5 & H).
    injection H as ? ? ? ? ? ? ?.
    exists c0, c4, c5. split; [by apply constructed_Some|]. done.
Qed.


(** ** Filling a cache of capacity [UINT_MAX] *)

Lemma distinct_puts_succ n : distinct_puts (N.succ n) = distinct_puts n ++ [Put n n].
Proof. unfold distinct_puts. by rewrite N.peano_rect_succ. Qed.

(** No [put] of a new key evicts when [capacity] is [UINT_MAX]: after [n]
    distinct keys the list has [n] entries, and [size] is [n] modulo
    [2^32]. *)
Lemma distinct_puts_max (c0 : @Cache N _ _ N) n :
  Counted c0 → entries c0 = [] → capacity c0 = Unsigned.UINT_MAX →
  ∃ c, run (distinct_puts n) c0 = Some c ∧ Counted c ∧
       capacity c = Unsigned.UINT_MAX ∧
       N.of_nat (length (entries c)) = n ∧
       (∀ k, k ∈ keys c → k < n).
Proof.
  intros HC0 Hes0 Hcap0. induction n as [|n IH] using N.peano_ind.
  - exists c0. split_and!; [done|done|done|by rewrite Hes0|].
    intros k. unfold keys. rewrite Hes0. by intros ?%elem_of_nil.
  - destruct IH as (c & Hrun & HC & Hcap & Hlen & Hks).
    assert (map c !! n = None) as Hm.
    { apply (WF_absent _ _ (Counted_WF _ HC)). intros Hin.
      apply Hks in Hin. lia. }
    destruct (put_new_max c n n HC Hcap Hm) as (c' & Hput & HC' & Hcap' & Hes').
    exists c'. rewrite distinct_puts_succ, run_app, Hrun.
    split_and!; [by simpl; rewrite Hput|done|congruence| |].
    + rewrite Hes'. cbn [length]. lia.
    + intros k. unfold keys. rewrite Hes'. cbn [fmap list_fmap fst].
      intros [->|Hin]%elem_of_cons; [lia|]. apply Hks in Hin. lia.
Qed.

(** C1, the failing input. A cache of capacity [UINT_MAX = 4294967295]
    takes [2^32] distinct keys without evicting any: [size++] wraps to 0, so
    [size > capacity] is never true.  Index and list still agree and then
    hold [2^32] entries each, while [size] is 0. *)
Theorem size_wraps_at_UINT_MAX :
  ∃ c0 c,
    new_ncache 4294967295 = Some (Returned c0) ∧
    run (distinct_puts 4294967296) c0 = Some c ∧
    WF c ∧
    capacity c = 4294967295 ∧
    size c = 0 ∧
    N.of_nat (length (keys c)) = 4294967296 ∧
    N.of_nat (base.size (map c)) = 4294967296 ∧
    N.of_nat (length (keys c)) ≠ size c.
Proof.
  destruct (ThreadSafeLRU_new 0 0 (Some 4294967295))
    as (c0 & Hnew & Hwf0 & Hes0 & _ & Hcap0 & Hsz0 & _); [done|].
  assert (Inv c0) as HI0 by (by eapply Inv_new; [|exact Hnew]).
  destruct (distinct_puts_max c0 4294967296 (Inv_Counted _ HI0) Hes0 Hcap0)
    as (c & Hrun & HC & Hcap & Hlen & _).
  pose proof HC as (Hwf & Hsz & _).
  assert (N.of_nat (length (keys c)) = 4294967296) as Hkeys.
  { unfold keys. rewrite length_fmap. exact Hlen. }
  assert (size c = 0) as Hsize.
  { rewrite Hsz, Hlen. reflexivity. }
  exists c0, c. split; [exact Hnew|]. split; [exact Hrun|]. split; [exact Hwf|].
  split; [exact Hcap|]. split; [exact Hsize|]. split; [exact Hkeys|].
  split.
  - rewrite (WF_map_size _ Hwf). exact Hkeys.
  - rewrite Hkeys, Hsize. discriminate.
Qed.

(** A cache of capacity [UINT_MAX] filled to capacity, and the [put] of one
    more key. *)
Lemma filled_to_UINT_MAX :
  ∃ c0 c1 c2 : @Cache N _ _ N,
    new_ncache 4294967295 = Some (Returned c0) ∧
    run (distinct_puts 4294967295) c0 = Some c1 ∧
    Inv c1 ∧ capacity c1 = 4294967295 ∧ size c1 = 4294967295 ∧
    N.of_nat (length (entries c1)) = 4294967295 ∧
    (4294967295 ∉ keys c1) ∧
    put 4294967295 4294967295 c1 = Some c2 ∧
    run (distinct_puts 4294967296) c0 = Some c2 ∧
    WF c2 ∧ capacity c2 = 4294967295 ∧
    entries c2 = (4294967295, 4294967295) :: entries c1 ∧
    size c2 = 0.
Proof.
  destruct (ThreadSafeLRU_new 0 0 (Some 4294967295))
    as (c0 & Hnew & Hwf0 & Hes0 & _ & Hcap0 & Hsz0 & _); [done|].
  assert (Inv c0) as HI0 by (by eapply Inv_new; [|exact Hnew]).
  destruct (distinct_puts_max c0 4294967295 (Inv_Counted _ HI0) Hes0 Hcap0)
    as (c1 & Hrun & HC & Hcap & Hlen & Hks).
  pose proof HC as (Hwf & Hsz & _).
  assert (size c1 = 4294967295) as Hsize.
  { rewrite Hsz, Hlen. reflexivity. }
  assert (4294967295 ∉ keys c1) as Hk.
  { intros Hin. apply Hks in Hin. lia. }
  assert (map c1 !! 4294967295 = None) as Hm by (by apply (WF_absent _ _ Hwf)).
  destruct (put_new_max c1 4294967295 4294967295 HC Hcap Hm)
    as (c2 & Hput & HC2 & Hcap2 & Hes2).
  pose proof HC2 as (Hwf2 & Hsz2 & _).
  exists c0, c1, c2. split; [exact Hnew|]. split; [exact Hrun|]. split.
  { split; [exact Hwf|]. split; [by rewrite Hsize, Hlen|].
    split; [rewrite Hsize, Hcap; reflexivity|].
    rewrite Hcap. split; reflexivity. }
  split; [exact Hcap|]. split; [exact Hsize|]. split; [exact Hlen|].
  split; [exact Hk|]. split; [exact Hput|]. split.
  { replace 4294967296 with (N.succ 4294967295) by reflexivity.
    rewrite distinct_puts_succ, run_app, Hrun. simpl. by rewrite Hput. }
  split; [exact Hwf2|]. split; [by rewrite Hcap2|]. split; [exact Hes2|].
  rewrite Hsz2, Hes2. cbn [length]. rewrite Nat2N.inj_succ, Hlen. reflexivity.
Qed.

(** C2, the failing input. A cache of capacity [UINT_MAX = 4294967295]
    that holds 4294967295 entries is full.  The [put] of one more key makes
    the number of entries exceed the capacity, and yet evicts nothing:
    [size++] wraps to 0, so [size > capacity] is false.  All former entries
    are still there, behind the new one. *)
Theorem put_at_UINT_MAX_evicts_nothing :
  ∃ c0 c c' : @Cache N _ _ N,
    new_ncache 4294967295 = Some (Returned c0) ∧
    run (distinct_puts 4294967295) c0 = Some c ∧
    Inv c ∧ capacity c = 4294967295 ∧
    N.of_nat (length (entries c)) = capacity c ∧
    (4294967295 ∉ keys c) ∧
    put 4294967295 4294967295 c = Some c' ∧
    entries c' = (4294967295, 4294967295) :: entries c ∧
    N.of_nat (length (entries c')) = 4294967296 ∧
    capacity c' = 4294967295 ∧
    capacity c' < N.of_nat (length (entries c')) ∧
    size c' = 0.
Proof.
  destruct filled_to_UINT_MAX
    as (c0 & c & c' & Hnew & Hrun & HI & Hcap & Hsz & Hlen & Hk & Hput & _ &
        _ & Hcap' & Hes' & Hsz').
  assert (N.of_nat (length (entries c')) = 4294967296) as Hlen'.
  { rewrite Hes'. cbn [length]. rewrite Nat2N.inj_succ, Hlen. reflexivity. }
  exists c0, c, c'. split; [exact Hnew|]. split; [exact Hrun|]. split; [exact HI|].
  split; [exact Hcap|]. split; [by rewrite Hlen, Hcap|]. split; [exact Hk|].
  split; [exact Hput|]. split; [exact Hes'|]. split; [exact Hlen'|].
  split; [exact Hcap'|]. split; [rewrite Hlen', Hcap'; reflexivity|]. exact Hsz'.
Qed.


(** C3, the counterexample. With capacity 1, after [put(a,1)] and
    4294967295 calls of [get(a)], [hits] is [UINT_MAX]; one more [get(a)]
    finds the key and leaves [hits] at 0, not at [hits + 1].  In the same
    way, after 4294967295 calls of [get(b)] on a fresh cache one more
    [get(b)] throws and leaves [misses] at 0. *)
Lemma counters_wrap_around :
  (∃ c0 c r c',
     new_cache 1 = Some (Returned c0) ∧
     run (Put "a"%string 1 :: gets "a"%string 4294967295) c0 = Some c ∧
     "a"%string ∈ keys c ∧
     hits c = 4294967295 ∧
     get "a"%string c = Some (r, c') ∧
     hits c' = 0 ∧
     hits c' ≠ hits c + 1) ∧
  (∃ c0 c c',
     new_cache 1 = Some (Returned c0) ∧
     run (gets "b"%string 4294967295) c0 = Some c ∧
     misses c = 4294967295 ∧
     get "b"%string c = Some (Threw out_of_range, c') ∧
     misses c' = 0 ∧
     misses c' ≠ misses c + 1).
Proof.
  destruct (ThreadSafeLRU_new ""%string 0 (Some 1))
    as (c0 & Hnew & Hwf0 & Hes0 & Hm0 & Hcap0 & Hsz0 & Hh0 & Hmi0); [done|].
  split.
  - assert (map c0 !! "a"%string = None) as Hm by (by rewrite Hm0).
    destruct (put_new_spec c0 "a"%string 1 Hwf0 Hm)
      as (c1 & Hput & Hwf1 & _ & Hh1 & _ & Hcase).
    rewrite Hcap0, Hsz0 in Hcase.
    change (default default_capacity (Some 1)) with 1 in Hcase.
    change (Unsigned.incr 0) with 1 in Hcase.
    rewrite decide_False in Hcase by lia.
    destruct Hcase as [Hes1 _].
    assert ("a"%string ∈ keys c1) as Hk1.
    { unfold keys. rewrite Hes1. by left. }
    destruct (gets_hits c1 "a"%string 4294967295 Hwf1 Hk1)
      as (c & Hrun & Hwf & Hk & _ & Hh).
    { rewrite Hh1, Hh0. reflexivity. }
    rewrite Hh1, Hh0 in Hh.
    change ((0 + 4294967295) mod Unsigned.modulus) with 4294967295 in Hh.
    destruct (proj2 (WF_present _ _ Hwf) Hk) as [x Hx].
    destruct (get_hit_spec c "a"%string x Hwf Hx)
      as (es1 & v & es2 & c' & _ & Hget & _ & _ & _ & _ & _ & Hh' & _).
    rewrite Hh in Hh'. change (Unsigned.incr 4294967295) with 0 in Hh'.
    exists c0, c, (Returned v), c'. split; [exact Hnew|]. split.
    { rewrite run_cons, step_Put, Hput. exact Hrun. }
    split; [exact Hk|]. split; [exact Hh|]. split; [exact Hget|].
    split; [exact Hh'|]. rewrite Hh', Hh. discriminate.
  - assert ("b"%string ∉ keys c0) as Hk0.
    { unfold keys. rewrite Hes0. apply not_elem_of_nil. }
    destruct (gets_misses c0 "b"%string 4294967295 Hwf0 Hk0)
      as (c & Hrun & Hwf & Hk & _ & Hmi).
    { rewrite Hmi0. reflexivity. }
    rewrite Hmi0 in Hmi.
    change ((0 + 4294967295) mod Unsigned.modulus) with 4294967295 in Hmi.
    pose proof (get_miss_spec c "b"%string (proj2 (WF_absent _ _ Hwf) Hk)) as Hget.
    rewrite Hmi in Hget. change (Unsigned.incr 4294967295) with 0 in Hget.
    exists c0, c, (with_misses 0 c). split; [exact Hnew|]. split; [exact Hrun|].
    split; [exact Hmi|]. split; [exact Hget|]. split; [reflexivity|].
    rewrite Hmi. discriminate.
Qed.

(** C8, the counterexample. With capacity 2, after [put] of the keys 1, 2
    and 3 the keys 3 and 2 remain; the three most recently used keys are 3,
    2 and 1. *)
Lemma three_keys_do_not_fit_two :
  ∃ c0 c,
    new_ncache 2 = Some (Returned c0) ∧
    run (puts [(1, 10); (2, 20); (3, 30)]) c0 = Some c ∧
    keys c = [3; 2] ∧
    ¬ (∀ k, k ∈ keys c ↔ k ∈ take (2 + 1) (rev [1; 2; 3])).
Proof.
  eexists _, _. split; [vm_compute; reflexivity|].
  split; [vm_compute; reflexivity|].
  split; [vm_compute; reflexivity|].
  intros H. specialize (H 1). destruct H as [_ H].
  assert (1 ∈ [3; 2]) as Hin.
  { apply H. simpl. right. right. by left. }
  apply elem_of_cons in Hin as [?|Hin]; [done|].
  apply elem_of_cons in Hin as [?|Hin]; [done|].
  by apply elem_of_nil in Hin.
Qed.

(** ** Two runs of the model

    With capacity 1, [put(a,1)] and [put(b,2)] leave [b] alone: [get(a)]
    throws and counts a miss, [get(b)] returns 2 and counts a hit. *)
Example capacity_one :
  (c0 ← constructed (new_cache 1);
   c2 ← run [Put "a" 1; Put "b" 2]%string c0;
   '(ra, c3) ← get "a"%string c2;
   '(rb, c4) ← get "b"%string c3;
   Some (entries c2, ra, rb, size c4, getHitMissStats c4))
  = Some ([("b", 2)]%string, Threw out_of_range, Returned 2, 1, (1, 1)).
Proof. vm_compute. reflexivity. Qed.

(** [remove] of the middle entry of three, then [resetStats]. *)
Example remove_middle :
  (c0 ← constructed (new_cache 3);
   c3 ← run [Put "a" 1; Put "b" 2; Put "c" 3; Get "z"]%string c0;
   '(r, c4) ← remove "b"%string c3;
   Some (entries c3, r, entries c4, size c4, getHitMissStats c4,
         getHitMissStats (resetStats c4), Invb c4))
  = Some ([("c", 3); ("b", 2); ("a", 1)]%string, true,
          [("c", 3); ("a", 1)]%string, 2, (0, 1), (0, 0), true).
Proof. vm_compute. reflexivity. Qed.

(** ** The theorems at concrete caches

    The caches are built by the constructor and a few calls; their
    invariant is checked by evaluating [Invb]. *)

Lemma put_evicts_least_recently_used_witness :
  ∃ c, constructed (new_cache 3) ≫= run [Put "a" 1; Put "b" 2; Put "c" 3]%string = Some c ∧
       Inv c ∧ ("d"%string ∉ keys c) ∧ capacity c < Unsigned.incr (size c) ∧
       ∃ es e l c',
         entries c = es ++ [e] ∧
         prevf (nodes c) (tail c) = Some l ∧ entry_at (nodes c) l = Some e ∧
         put "d"%string 4 c = Some c' ∧
         entries c' = ("d"%string, 4) :: es ∧
         (e.1 ∉ keys c') ∧ map c' !! e.1 = None ∧
         length (entries c') = length (entries c) ∧
         size c' = size c ∧ size c' ≤ capacity c' ∧ Inv c'.
Proof.
  assert ((c ← constructed (new_cache 3) ≫= run [Put "a" 1; Put "b" 2; Put "c" 3]%string;
           Some (Invb c, bool_decide ("d"%string ∉ keys c),
                 bool_decide (capacity c < Unsigned.incr (size c))))
          = Some (true, true, true)) as H
    by (vm_compute; reflexivity).
  apply bind_Some in H as (c & Hrun & H). injection H as HI Hd Hov.
  apply Invb_spec in HI. apply bool_decide_eq_true in Hd, Hov.
  exists c. split; [exact Hrun|]. split; [exact HI|]. split; [exact Hd|].
  split; [exact Hov|].
  exact (proj1 put_evicts_least_recently_used _ _ _ _ c "d"%string 4 HI Hd Hov).
Defined.

Lemma get_hit_or_miss_witness :
  ∃ c, constructed (new_cache 3) ≫= run [Put "a" 1; Put "b" 2]%string = Some c ∧
       keys c = ["b"; "a"]%string ∧
       WF c ∧
       ∃ r c', get "a"%string c = Some (r, c') ∧ WF c' ∧
         (r = Threw out_of_range ↔ "a"%string ∉ keys c) ∧
         ("a"%string ∈ keys c →
            ∃ es1 v es2,
              entries c = es1 ++ ("a"%string, v) :: es2 ∧ r = Returned v ∧
              entries c' = ("a"%string, v) :: es1 ++ es2 ∧
              hits c' = Unsigned.incr (hits c) ∧
              (hits c < Unsigned.UINT_MAX → hits c' = hits c + 1) ∧
              misses c' = misses c) ∧
         ("a"%string ∉ keys c →
            entries c' = entries c ∧ order c' = order c ∧ map c' = map c ∧
            misses c' = Unsigned.incr (misses c) ∧
            (misses c < Unsigned.UINT_MAX → misses c' = misses c + 1) ∧
            hits c' = hits c) ∧
         size c' = size c ∧ capacity c' = capacity c.
Proof.
  assert ((c ← constructed (new_cache 3) ≫= run [Put "a" 1; Put "b" 2]%string;
           Some (keys c, WFb c)) = Some (["b"; "a"]%string, true)) as H
    by (vm_compute; reflexivity).
  apply bind_Some in H as (c & Hrun & H). injection H as Hkeys Hwf.
  apply WFb_spec in Hwf.
  exists c. split; [exact Hrun|]. split; [exact Hkeys|]. split; [exact Hwf|].
  exact (get_hit_or_miss c "a"%string Hwf).
Defined.

Lemma put_existing_updates_in_place_witness :
  ∃ c, constructed (new_cache 3) ≫= run [Put "a" 1; Put "b" 2]%string = Some c ∧
       keys c = ["b"; "a"]%string ∧
       Inv c ∧
       ("a"%string ∈ keys c →
          ∃ es1 v0 es2 c',
            entries c = es1 ++ ("a"%string, v0) :: es2 ∧
            put "a"%string 7 c = Some c' ∧
            entries c' = ("a"%string, 7) :: es1 ++ es2 ∧
            size c' = size c ∧ Inv c') ∧
       (∃ c1 c2 c3,
          put "a"%string 5 c = Some c1 ∧ put "a"%string 7 c1 = Some c2 ∧
          size c2 = size c1 ∧ length (entries c2) = length (entries c1) ∧
          get "a"%string c2 = Some (Returned 7, c3)).
Proof.
  assert ((c ← constructed (new_cache 3) ≫= run [Put "a" 1; Put "b" 2]%string;
           Some (keys c, Invb c)) = Some (["b"; "a"]%string, true)) as H
    by (vm_compute; reflexivity).
  apply bind_Some in H as (c & Hrun & H). injection H as Hkeys HI.
  apply Invb_spec in HI.
  exists c. split; [exact Hrun|]. split; [exact Hkeys|]. split; [exact HI|].
  exact (put_existing_updates_in_place c "a"%string 5 7 HI).
Defined.


Lemma contains_is_a_peek_witness :
  ∃ c, constructed (new_cache 3) ≫= run [Put "a" 1; Put "b" 2]%string = Some c ∧
       keys c = ["b"; "a"]%string ∧
       WF c ∧
       ((contains "a"%string c).1 = true ↔ "a"%string ∈ keys c) ∧
       (contains "a"%string c).2 = c ∧
       contains_many "a"%string 5 c = c.
Proof.
  assert ((c ← constructed (new_cache 3) ≫= run [Put "a" 1; Put "b" 2]%string;
           Some (keys c, WFb c)) = Some (["b"; "a"]%string, true)) as H
    by (vm_compute; reflexivity).
  apply bind_Some in H as (c & Hrun & H). injection H as Hkeys Hwf.
  apply WFb_spec in Hwf.
  destruct (contains_is_a_peek c "a"%string) as (_ & Hpresent & Hsame & Hmany).
  exists c. split; [exact Hrun|]. split; [exact Hkeys|]. split; [exact Hwf|].
  split; [exact (Hpresent Hwf)|]. split; [exact Hsame|].
  exact (proj1 (Hmany 5%nat)).
Defined.

Lemma construction_checks_capacity_witness :
  3 ≠ 0 ∧
  ∃ c, new_cache 3 = Some (Returned c) ∧
       size c = 0 ∧ hits c = 0 ∧ misses c = 0 ∧ capacity c = 3 ∧
       entries c = [] ∧ map c = ∅ ∧ WF c ∧
       ∀ ops, ∃ c', run ops c = Some c' ∧ capacity c' = 3.
Proof.
  assert (3 ≠ 0) as Hne by discriminate.
  split; [exact Hne|].
  exact (proj2 (proj2 (construction_checks_capacity ""%string 0 3)) Hne).
Defined.

Lemma one_more_than_capacity_witness :
  ∃ c0, new_ncache 2 = Some (Returned c0) ∧
        ∃ c, run (puts [(1, 10); (2, 20); (3, 30)]) c0 = Some c ∧ Inv c ∧
             N.of_nat (length (keys c)) = 2 ∧
             entries c = take (N.to_nat 2) (rev [(1, 10); (2, 20); (3, 30)]) ∧
             keys c = take (N.to_nat 2) (rev [(1, 10); (2, 20); (3, 30)].*1) ∧
             keys c = rev (List.tl [(1, 10); (2, 20); (3, 30)].*1).
Proof.
  assert (constructed (new_ncache 2) ≫= (λ c0, Some (size c0)) = Some 0) as H
    by (vm_compute; reflexivity).
  apply bind_Some in H as (c0 & Hnew & _). apply constructed_Some in Hnew.
  assert (NoDup [(1, 10); (2, 20); (3, 30)].*1) as Hnd.
  { apply (bool_decide_unpack _). vm_compute. exact I. }
  exists c0. split; [exact Hnew|].
  exact (one_more_than_capacity 0 0 2 [(1, 10); (2, 20); (3, 30)] c0
           eq_refl eq_refl Hnd eq_refl Hnew).
Defined.

(** * The private member functions, the statistics and [main] *)

Section More.

Context {K : Type} `{!EqDecision K, !Countable K}.
Context {V : Type}.

Implicit Types (h : gmap loc (@Node K V)) (c : @Cache K _ _ V).
Implicit Types (l x a b : loc) (ls pre post : list loc).
Implicit Types (o : @Op K V) (ops : list (@Op K V)).
Implicit Types (r : @Result V) (rs : list (@Result V)).

(** ** The private member functions *)

Lemma removeNode_shape c x c' :
  removeNode x c = Some c' →
  ∃ h', c' = with_nodes h' c ∧ nextf h' x = None ∧ prevf h' x = None.
Proof.
  unfold removeNode. intros H.
  apply bind_Some in H as (n & Hn & H).
  apply bind_Some in H as (h1 & H1 & H).
  apply bind_Some in H as (n1 & Hn1 & H).
  apply bind_Some in H as (h2 & H2 & H).
  apply bind_Some in H as (h3 & H3 & H).
  apply bind_Some in H as (h4 & H4 & H).
  injection H as <-. exists h4. split; [done|].
  unfold set_next in H3. apply bind_Some in H3 as (n2 & Hn2 & H3).
  injection H3 as <-.
  unfold set_prev in H4. rewrite lookup_insert_eq in H4. simpl in H4.
  injection H4 as <-.
  rewrite nextf_insert, prevf_insert, !decide_True by done. done.
Qed.

(** [moveToFront] of the node that is first already leaves the cache as
    it is. *)
Lemma moveToFront_front c x post :
  chain c (x :: post) → moveToFront x c = Some c.
Proof.
  intros [Hnd Hl].
  assert (∃ b B, post ++ [tail c] = b :: B) as (b & B & HB).
  { destruct post; simpl; eauto. }
  change ((x :: post) ++ [tail c]) with (x :: (post ++ [tail c])) in Hnd, Hl.
  rewrite HB in Hnd, Hl.
  rewrite !linked_cons in Hl. destruct Hl as (Hnh & Hpx & Hnx & Hpb & _).
  rewrite !NoDup_cons, !not_elem_of_cons in Hnd.
  destruct Hnd as ((Hhx & Hhb & _) & (Hxb & _) & _).
  unfold nextf, prevf in *.
  destruct (nodes c !! head c) as [nh|] eqn:Hh; [simpl in Hnh|done].
  destruct (nodes c !! x) as [nx|] eqn:Hx; [simpl in Hpx, Hnx|done].
  destruct (nodes c !! b) as [nb|] eqn:Hb; [simpl in Hpb|done].
  unfold moveToFront, removeNode, addToFront, lock, set_next, set_prev.
  repeat (simplify_map_eq; simpl).
  f_equal. destruct c as [h cap sz m hd tl hi mi]. unfold with_nodes. simpl in *.
  f_equal. apply map_eq. intros i.
  rewrite !lookup_insert. repeat case_decide; subst; try done.
  - rewrite Hh. f_equal. destruct nh; simpl in *; congruence.
  - rewrite Hb. f_equal. destruct nb; simpl in *; congruence.
  - rewrite Hx. f_equal. destruct nx; simpl in *; congruence.
Qed.

(** X2. [removeNode] of a node on the list, be it the first, the last or
    one in between, takes it out and links its neighbours; the other nodes
    keep their order and every node its key and value.  The node itself is
    left with both links null.  Index, [size] and the counters are not
    touched: erasing the key is the caller's business. *)
Theorem removeNode_unlinks c pre x post :
  chain c (pre ++ x :: post) →
  ∃ c', removeNode x c = Some c' ∧
        chain c' (pre ++ post) ∧ order c' = pre ++ post ∧
        (∀ l, entry_at (nodes c') l = entry_at (nodes c) l) ∧
        nextf (nodes c') x = None ∧ prevf (nodes c') x = None ∧
        map c' = map c ∧ size c' = size c ∧ capacity c' = capacity c ∧
        head c' = head c ∧ tail c' = tail c ∧
        hits c' = hits c ∧ misses c' = misses c.
Proof.
  intros Hc.
  destruct (removeNode_chain c pre x post Hc) as (h' & Hrm & Hc' & Hse).
  destruct (removeNode_shape c x _ Hrm) as (h'' & Heq & Hn & Hp).
  exists (with_nodes h' c). split_and!; try done.
  - by apply order_chain.
  - by rewrite Heq.
  - by rewrite Heq.
Qed.

(** X3. [addToFront] of a node that is on the heap and not on the list
    makes it the first node after [head]; the nodes of the list follow in
    their order, also when the list was empty.  Keys, values, index, [size]
    and the counters are not touched. *)
Theorem addToFront_links_first c x ls :
  chain c ls → x ∉ head c :: ls ++ [tail c] → is_Some (nodes c !! x) →
  ∃ c', addToFront x c = Some c' ∧
        chain c' (x :: ls) ∧ order c' = x :: ls ∧
        nextf (nodes c') (head c) = Some x ∧ prevf (nodes c') x = Some (head c) ∧
        (∀ l, entry_at (nodes c') l = entry_at (nodes c) l) ∧
        map c' = map c ∧ size c' = size c ∧ capacity c' = capacity c ∧
        head c' = head c ∧ tail c' = tail c ∧
        hits c' = hits c ∧ misses c' = misses c.
Proof.
  intros Hc Hx Hsx.
  destruct (addToFront_chain c x ls Hc Hx Hsx) as (h' & Hadd & Hc' & Hse).
  pose proof (chain_linked _ _ Hc') as Hl.
  change (head (with_nodes h' c) :: (x :: ls) ++ [tail (with_nodes h' c)])
    with (head c :: x :: (ls ++ [tail c])) in Hl.
  destruct Hl as (Hn & Hp & _).
  exists (with_nodes h' c). split_and!; try done.
  by apply order_chain.
Qed.

(** X4. [moveToFront] of a node on the list makes it the first; the others
    keep their order, every node its key and value.  On the node that is
    first already it changes nothing at all. *)
Theorem moveToFront_reorders c pre x post :
  chain c (pre ++ x :: post) →
  ∃ c', moveToFront x c = Some c' ∧
        chain c' (x :: pre ++ post) ∧ order c' = x :: pre ++ post ∧
        (∀ l, entry_at (nodes c') l = entry_at (nodes c) l) ∧
        map c' = map c ∧ size c' = size c ∧ capacity c' = capacity c ∧
        head c' = head c ∧ tail c' = tail c ∧
        hits c' = hits c ∧ misses c' = misses c ∧
        (pre = [] → c' = c).
Proof.
  intros Hc.
  destruct (moveToFront_chain c pre x post Hc) as (h' & Hmv & Hc' & Hse).
  exists (with_nodes h' c). split_and!; try done.
  - by apply order_chain.
  - intros ->. simpl in Hc. rewrite (moveToFront_front c x post Hc) in Hmv.
    congruence.
Qed.

(** X5. [evictLRU] does nothing when [size] is 0, and nothing when the list
    is empty (the node before [tail] is [head]); otherwise it takes the last
    node off the list, erases its key from the index and decrements
    [size]. *)
Theorem evictLRU_guards c :
  (size c = 0 → evictLRU c = Some c) ∧
  (WF c → entries c = [] → evictLRU c = Some c) ∧
  (WF c → size c ≠ 0 → ∀ es e, entries c = es ++ [e] →
     ∃ c', evictLRU c = Some c' ∧ WF c' ∧ entries c' = es ∧
           map c' = delete e.1 (map c) ∧ (e.1 ∉ keys c') ∧
           size c' = Unsigned.decr (size c) ∧ capacity c' = capacity c ∧
           hits c' = hits c ∧ misses c' = misses c).
Proof.
  split_and!.
  - intros Hsz. unfold evictLRU. by rewrite decide_True.
  - intros (ls & Hc & Hi) Hes. unfold evictLRU. case_decide; [done|].
    rewrite (entries_chain _ _ Hc) in Hes.
    assert (ls = []) as ->.
    { destruct ls as [|l ls]; [done|].
      destruct (chain_lookup c _ l Hc) as [n Hn]; [right; by left|].
      rewrite entries_of_unfold in Hes. unfold entry_at in Hes at 1.
      rewrite Hn in Hes. done. }
    pose proof (chain_linked _ _ Hc) as (_ & Hp & _).
    destruct (chain_lookup c _ (head c) Hc) as [nh Hh]; [by left|].
    unfold prevf in Hp.
    destruct (nodes c !! tail c) as [tl|]; [simpl in *|done].
    rewrite Hp. unfold lock. simpl. rewrite Hh. simpl.
    by rewrite decide_False by (intros E; by apply E).
  - intros Hwf Hsz es e Hes.
    destruct (evictLRU_spec c Hwf Hsz) as (es' & e' & c' & Hes' & Hev & Hwf' & Hes'' & Hm & Hrest).
    { rewrite Hes. by destruct es. }
    rewrite Hes in Hes'. apply app_inj_tail in Hes' as [<- <-].
    exists c'. split_and!; try done; try apply Hrest.
    apply (WF_absent _ _ Hwf'). rewrite Hm. apply lookup_delete_eq.
Qed.

(** ** The cache as a dictionary *)

Lemma contents_lookup c k v :
  WF c → contents c !! k = Some v ↔ (k, v) ∈ entries c.
Proof.
  intros Hwf. unfold contents. symmetry.
  apply elem_of_list_to_map, (WF_NoDup_keys _ Hwf).
Qed.

Lemma contents_None c k : WF c → contents c !! k = None ↔ k ∉ keys c.
Proof. intros Hwf. unfold contents, keys. symmetry. apply not_elem_of_list_to_map. Qed.

Lemma contents_is_Some c k : WF c → is_Some (contents c !! k) ↔ is_Some (map c !! k).
Proof.
  intros Hwf. rewrite (WF_present _ _ Hwf), <-not_eq_None_Some.
  rewrite (contents_None _ _ Hwf). split; [apply dec_stable|by intros ? ?].
Qed.

Lemma contents_ext c c' (m : gmap K V) :
  WF c' → (∀ k v, (k, v) ∈ entries c' ↔ m !! k = Some v) → contents c' = m.
Proof.
  intros Hwf Hin. apply map_eq. intros k. apply option_eq. intros v.
  by rewrite (contents_lookup _ _ _ Hwf).
Qed.

Lemma elem_of_app_cons_ne (es1 es2 : list (K * V)) k v k' v' :
  k' ≠ k → (k', v') ∈ es1 ++ (k, v) :: es2 ↔ (k', v') ∈ es1 ++ es2.
Proof.
  intros Hne. rewrite !elem_of_app, elem_of_cons.
  split; [|tauto]. intros [?|[[= ? ?]|?]]; tauto.
Qed.

Lemma contents_moved c c' (es1 es2 : list (K * V)) k v0 v :
  WF c → WF c' →
  entries c = es1 ++ (k, v0) :: es2 → entries c' = (k, v) :: es1 ++ es2 →
  contents c' = <[k := v]> (contents c).
Proof.
  intros Hwf Hwf' Hes Hes'. apply (contents_ext c c' _ Hwf'). intros k' v'.
  destruct (keys_app_cons c es1 es2 k v0 Hwf Hes) as [Hk1 Hk2].
  rewrite Hes'. destruct (decide (k' = k)) as [->|Hne].
  - rewrite lookup_insert_eq, elem_of_cons, elem_of_app. split.
    + intros [[= ->]|[Hin|Hin]]; [done| |].
      * destruct Hk1. apply list_elem_of_fmap. by exists (k, v').
      * destruct Hk2. apply list_elem_of_fmap. by exists (k, v').
    + intros [= ->]. by left.
  - rewrite lookup_insert_ne by done. rewrite (contents_lookup _ _ _ Hwf), Hes.
    rewrite elem_of_cons, (elem_of_app_cons_ne _ _ _ _ _ _ Hne).
    split; [|tauto]. intros [[= ? ?]|?]; [done|tauto].
Qed.

Lemma contents_removed c c' (es1 es2 : list (K * V)) k v :
  WF c → WF c' →
  entries c = es1 ++ (k, v) :: es2 → entries c' = es1 ++ es2 →
  contents c' = delete k (contents c).
Proof.
  intros Hwf Hwf' Hes Hes'. apply (contents_ext c c' _ Hwf'). intros k' v'.
  destruct (keys_app_cons c es1 es2 k v Hwf Hes) as [Hk1 Hk2].
  rewrite Hes'. destruct (decide (k' = k)) as [->|Hne].
  - rewrite lookup_delete_eq, elem_of_app. split; [|done].
    intros [Hin|Hin].
    + destruct Hk1. apply list_elem_of_fmap. by exists (k, v').
    + destruct Hk2. apply list_elem_of_fmap. by exists (k, v').
  - rewrite lookup_delete_ne by done. rewrite (contents_lookup _ _ _ Hwf), Hes.
    by rewrite (elem_of_app_cons_ne _ _ _ _ _ _ Hne).
Qed.

Lemma contents_added c c' k v :
  WF c → WF c' → k ∉ keys c → entries c' = (k, v) :: entries c →
  contents c' = <[k := v]> (contents c).
Proof.
  intros Hwf Hwf' Hk Hes'. unfold contents. by rewrite Hes', list_to_map_cons.
Qed.

Lemma get_contents c k :
  WF c →
  ∃ c', get k c =
          Some (from_option Returned (Threw out_of_range) (contents c !! k), c') ∧
    WF c' ∧ contents c' = contents c ∧
    size c' = size c ∧ capacity c' = capacity c ∧
    hits c' = match contents c !! k with
              | Some _ => Unsigned.incr (hits c) | None => hits c end ∧
    misses c' = match contents c !! k with
                | Some _ => misses c | None => Unsigned.incr (misses c) end.
Proof.
  intros Hwf. destruct (map c !! k) as [x|] eqn:Hm.
  - destruct (get_hit_spec c k x Hwf Hm)
      as (es1 & v & es2 & c' & Hes & -> & Hwf' & Hes' & _ & Hsz & Hc & Hh & Hmi).
    assert (contents c !! k = Some v) as Hk.
    { apply (contents_lookup _ _ _ Hwf). rewrite Hes.
      apply elem_of_app. right. by left. }
    exists c'. rewrite Hk. simpl. split_and!; try done.
    rewrite (contents_moved c c' es1 es2 k v v Hwf Hwf' Hes Hes').
    by apply insert_id.
  - rewrite (get_miss_spec c k Hm).
    assert (contents c !! k = None) as Hk.
    { apply (contents_None _ _ Hwf), (WF_absent _ _ Hwf), Hm. }
    eexists. rewrite Hk. simpl. split_and!; try done.
    by eapply WF_same; [| | | |exact Hwf].
Qed.

Lemma put_contents c k v :
  Inv c →
  ∃ c', put k v c = Some c' ∧ WF c' ∧
    if decide (contents c !! k = None ∧ capacity c < Unsigned.incr (size c))
    then ∃ old, last (keys c) = Some old ∧ old ≠ k ∧
                contents c' = delete old (<[k := v]> (contents c))
    else contents c' = <[k := v]> (contents c).
Proof.
  intros HI. pose proof (Inv_WF _ HI) as Hwf.
  destruct (map c !! k) as [x|] eqn:Hm.
    + destruct (put_hit_spec c k v x Hwf Hm)
        as (es1 & v0 & es2 & c' & Hes & -> & Hwf' & Hes' & _).
      assert (contents c !! k = Some v0) as Hk.
      { apply (contents_lookup _ _ _ Hwf). rewrite Hes.
        apply elem_of_app. right. by left. }
      exists c'. split_and!; try done.
      rewrite decide_False by (rewrite Hk; by intros [? _]).
      by eapply contents_moved.
    + assert (k ∉ keys c) as Hnk by (by apply (WF_absent _ _ Hwf)).
      assert (contents c !! k = None) as Hk by (by apply (contents_None _ _ Hwf)).
      destruct (decide (capacity c < Unsigned.incr (size c))) as [Hov|Hov].
      * destruct (put_new_at_capacity c k v HI Hnk Hov)
          as (es & e & l & c' & Hes & _ & _ & -> & Hes' & Hgone & _ & _ & _ & _ & HI').
        pose proof (Inv_WF _ HI') as Hwf'.
        exists c'. split_and!; try done.
        rewrite decide_True by done.
        assert (e.1 ∈ keys c) as Hin.
        { unfold keys. rewrite Hes, fmap_app. apply elem_of_app. right. by left. }
        exists e.1. split_and!.
        { unfold keys. rewrite Hes, fmap_app. simpl. apply last_snoc. }
        { intros E. by rewrite E in Hin. }
        apply (contents_ext c c' _ Hwf'). intros k' v'.
        destruct (decide (k' = e.1)) as [->|Hne].
        { rewrite lookup_delete_eq. split; [|done]. intros Hin'.
          destruct Hgone. apply list_elem_of_fmap. by exists (e.1, v'). }
        rewrite lookup_delete_ne by done. rewrite Hes', elem_of_cons.
        destruct (decide (k' = k)) as [->|Hne'].
        { rewrite lookup_insert_eq. split.
          - intros [[= ->]|Hin']; [done|]. destruct Hnk.
            unfold keys. rewrite Hes, fmap_app. apply elem_of_app. left.
            apply list_elem_of_fmap. by exists (k, v').
          - intros [= ->]. by left. }
        rewrite lookup_insert_ne by done.
        rewrite (contents_lookup _ _ _ Hwf), Hes, elem_of_app, list_elem_of_singleton.
        split.
        { intros [E|?]; [by injection E|by left]. }
        intros [?|E]; [by right|]. destruct Hne. by rewrite <-E.
      * destruct (put_new_spec c k v Hwf Hm) as (c' & -> & Hwf' & _ & _ & _ & Hcase).
        rewrite decide_False in Hcase by done. destruct Hcase as [Hes' _].
        exists c'. split_and!; try done.
        rewrite decide_False by (by intros [_ ?]).
        by eapply contents_added.
Qed.

(** X6. Seen through [contents], the cache is a dictionary: [get] returns
    what is stored under the key and stores nothing; [put] stores the pair,
    and when the key is new and [size] would exceed [capacity] it drops the
    key at the end of the recency list and no other; [remove] deletes the key
    and reports whether it was there; [contains] reports the same and changes
    nothing. *)
Theorem cache_is_a_dictionary c o :
  Inv c →
  ∃ r c', call o c = Some (r, c') ∧ WF c' ∧
    match o with
    | Get k =>
        r = GetResult (from_option Returned (Threw out_of_range) (contents c !! k)) ∧
        contents c' = contents c
    | Put k v =>
        r = PutDone ∧
        if decide (contents c !! k = None ∧ capacity c < Unsigned.incr (size c))
        then ∃ old, last (keys c) = Some old ∧ old ≠ k ∧
                    contents c' = delete old (<[k := v]> (contents c))
        else contents c' = <[k := v]> (contents c)
    | Remove k =>
        r = RemoveResult (bool_decide (is_Some (contents c !! k))) ∧
        contents c' = delete k (contents c)
    | Contains k =>
        r = ContainsResult (bool_decide (is_Some (contents c !! k))) ∧ c' = c
    end.
Proof.
  intros HI. pose proof (Inv_WF _ HI) as Hwf.
  destruct o as [k|k v|k|k]; simpl.
  - destruct (get_contents c k Hwf) as (c' & -> & Hwf' & Hc & _).
    simpl. by eexists _, _.
  - destruct (put_contents c k v HI) as (c' & -> & Hwf' & Hc).
    simpl. by eexists _, _.
  - destruct (map c !! k) as [x|] eqn:Hm.
    + destruct (remove_hit_spec c k x Hwf Hm)
        as (es1 & v & es2 & c' & Hes & -> & Hwf' & Hes' & _).
      exists (RemoveResult true), c'. simpl. split_and!; try done.
      * f_equal. symmetry. apply bool_decide_eq_true.
        apply (contents_is_Some _ _ Hwf). eauto.
      * by eapply contents_removed.
    + unfold remove. rewrite Hm. simpl.
      assert (contents c !! k = None) as Hk.
      { apply (contents_None _ _ Hwf), (WF_absent _ _ Hwf), Hm. }
      exists (RemoveResult false), c. split_and!; try done.
      * f_equal. symmetry. apply bool_decide_eq_false. rewrite Hk. by intros [? ?].
      * symmetry. by apply delete_id.
  - exists (ContainsResult (bool_decide (map c !! k ≠ None))), c.
    split_and!; try done. f_equal. apply bool_decide_ext.
    by rewrite not_eq_None_Some, (contents_is_Some _ _ Hwf).
Qed.

Lemma call_stats c o :
  WF c →
  ∃ r c', call o c = Some (r, c') ∧ WF c' ∧ capacity c' = capacity c ∧
    hits c' = (if is_hit r then Unsigned.incr (hits c) else hits c) ∧
    misses c' = (if is_miss r then Unsigned.incr (misses c) else misses c) ∧
    is_hit r || is_miss r = is_get o ∧ is_hit r && is_miss r = false.
Proof.
  intros Hwf. destruct o as [k|k v|k|k]; simpl.
  - destruct (map c !! k) as [x|] eqn:Hm.
    + destruct (get_hit_spec c k x Hwf Hm)
        as (es1 & v & es2 & c' & _ & -> & Hwf' & _ & _ & _ & Hc & Hh & Hmi).
      by exists (GetResult (Returned v)), c'.
    + rewrite (get_miss_spec c k Hm). simpl.
      eexists _, _. split_and!; try done.
      by eapply WF_same; [| | | |exact Hwf].
  - destruct (map c !! k) as [x|] eqn:Hm.
    + destruct (put_hit_spec c k v x Hwf Hm)
        as (es1 & v0 & es2 & c' & _ & -> & Hwf' & _ & _ & _ & Hc & Hh & Hmi).
      by exists PutDone, c'.
    + destruct (put_new_spec c k v Hwf Hm) as (c' & -> & Hwf' & Hc & Hh & Hmi & _).
      by exists PutDone, c'.
  - destruct (map c !! k) as [x|] eqn:Hm.
    + destruct (remove_hit_spec c k x Hwf Hm)
        as (es1 & v & es2 & c' & _ & -> & Hwf' & _ & _ & _ & Hc & Hh & Hmi).
      by exists (RemoveResult true), c'.
    + unfold remove. rewrite Hm. simpl. by exists (RemoveResult false), c.
  - by eexists _, _.
Qed.

Lemma count_hits_cons r rs :
  count_hits (r :: rs) = (if is_hit r then 1 else 0) + count_hits rs.
Proof. unfold count_hits. simpl. destruct (is_hit r); simpl; lia. Qed.

Lemma count_misses_cons r rs :
  count_misses (r :: rs) = (if is_miss r then 1 else 0) + count_misses rs.
Proof. unfold count_misses. simpl. destruct (is_miss r); simpl; lia. Qed.

Lemma incr_add_mod (m n : N) :
  (Unsigned.incr m + n) mod Unsigned.modulus = (m + (1 + n)) mod Unsigned.modulus.
Proof. rewrite UnsignedFacts.incr_add. f_equal. lia. Qed.

Lemma calls_stats c ops :
  WF c → Unsigned.in_range (hits c) → Unsigned.in_range (misses c) →
  ∃ rs c', calls ops c = Some (rs, c') ∧ WF c' ∧
    length rs = length ops ∧
    hits c' = (hits c + count_hits rs) mod Unsigned.modulus ∧
    misses c' = (misses c + count_misses rs) mod Unsigned.modulus ∧
    count_hits rs + count_misses rs = N.of_nat (length (List.filter is_get ops)).
Proof.
  intros Hwf Hh Hm. revert c Hwf Hh Hm.
  induction ops as [|o ops IH]; intros c Hwf Hh Hm.
  - exists [], c. unfold count_hits, count_misses. simpl.
    rewrite !N.add_0_r, !N.mod_small by done. done.
  - destruct (call_stats c o Hwf) as (r & c1 & Hcall & Hwf1 & _ & Hh1 & Hm1 & Hg & Hx).
    assert (Unsigned.in_range (hits c1)) as Hr1.
    { rewrite Hh1. destruct (is_hit r); [apply UnsignedFacts.incr_in_range|done]. }
    assert (Unsigned.in_range (misses c1)) as Hr2.
    { rewrite Hm1. destruct (is_miss r); [apply UnsignedFacts.incr_in_range|done]. }
    destruct (IH c1 Hwf1 Hr1 Hr2) as (rs & c' & Hcalls & Hwf' & Hlen & Hh' & Hm' & Hcnt).
    exists (r :: rs), c'. simpl. rewrite Hcall. simpl. rewrite Hcalls. simpl.
    split_and!; try done.
    + by rewrite Hlen.
    + rewrite Hh', Hh1, count_hits_cons. destruct (is_hit r); [|done].
      apply incr_add_mod.
    + rewrite Hm', Hm1, count_misses_cons. destruct (is_miss r); [|done].
      apply incr_add_mod.
    + rewrite count_hits_cons, count_misses_cons. rewrite <-Hg.
      destruct (is_hit r), (is_miss r); simpl in *; try done; lia.
Qed.

(** X7. The two counters count the calls of [get], modulo 2^32: after any
    sequence of calls [getHitMissStats] has grown by the number of [get]s
    that returned and by the number that threw; [put], [remove] and
    [contains] leave both counters alone, and every [get] is counted in
    exactly one of them. *)
Theorem statistics_count_gets c ops :
  WF c → Unsigned.in_range (hits c) → Unsigned.in_range (misses c) →
  ∃ rs c', calls ops c = Some (rs, c') ∧
    length rs = length ops ∧
    getHitMissStats c' =
      (((getHitMissStats c).1 + count_hits rs) mod Unsigned.modulus,
       ((getHitMissStats c).2 + count_misses rs) mod Unsigned.modulus) ∧
    count_hits rs + count_misses rs = N.of_nat (length (List.filter is_get ops)).
Proof.
  intros Hwf Hh Hm.
  destruct (calls_stats c ops Hwf Hh Hm) as (rs & c' & Hc & _ & Hl & Hh' & Hm' & Hcnt).
  exists rs, c'. split_and!; try done.
  unfold getHitMissStats. simpl. by rewrite Hh', Hm'.
Qed.

Lemma quotient_facts (h t : N) :
  0 < t →
  let q := (inject_Z (Z.of_N h) / inject_Z (Z.of_N t))%Q in
  ((q == 0)%Q ↔ h = 0) ∧ (0 <= q)%Q ∧ ((q <= 1)%Q ↔ h ≤ t) ∧ ((1 < q)%Q ↔ t < h).
Proof.
  intros Ht. destruct t as [|p]; [lia|].
  unfold Qdiv, Qinv, Qmult, Qeq, Qle, Qlt, inject_Z. simpl.
  rewrite ?Z.mul_1_r, ?Pos.mul_1_l. split_and!; try split; lia.
Qed.

(** X8. [getHitRatio] returns [0.0] exactly when [hits] is 0 or the 32-bit
    sum [hits + misses] is 0; that sum is 0 when both counters are 0 and
    also when their sum is exactly 2^32.  In every other case it divides
    [hits] by the 32-bit sum, which is then positive: the result is the
    share of hits, at most one, when the sum did not wrap, and greater than
    one when it did. *)
Theorem getHitRatio_cases c :
  Unsigned.in_range (hits c) → Unsigned.in_range (misses c) →
  ((getHitRatio c == 0)%Q ↔
     hits c = 0 ∨ hits c + misses c = Unsigned.modulus) ∧
  (0 <= getHitRatio c)%Q ∧
  (0 < hits c + misses c < Unsigned.modulus →
     getHitRatio c =
       (inject_Z (Z.of_N (hits c)) / inject_Z (Z.of_N (hits c + misses c)))%Q ∧
     (getHitRatio c <= 1)%Q) ∧
  (Unsigned.modulus < hits c + misses c →
     getHitRatio c =
       (inject_Z (Z.of_N (hits c)) /
        inject_Z (Z.of_N (hits c + misses c - Unsigned.modulus)))%Q ∧
     0 < hits c + misses c - Unsigned.modulus ∧
     (1 < getHitRatio c)%Q).
Proof.
  unfold Unsigned.in_range, getHitRatio. rewrite UnsignedFacts.modulus_eq.
  intros Hh Hm.
  destruct (decide (hits c + misses c < 4294967296)) as [Hlt|Hge].
  - rewrite (N.mod_small _ _ Hlt). case_decide as Hpos.
    + destruct (quotient_facts (hits c) (hits c + misses c) Hpos)
        as (Hz & Hnn & Hle & _).
      split_and!; [|done| |intros ?; lia].
      * rewrite Hz. split; [by left|]. intros [?|?]; [done|lia].
      * intros _. split; [done|]. apply Hle. lia.
    + split_and!; [|done|intros ?; lia|intros ?; lia].
      split; [intros _; left; lia|done].
  - assert ((hits c + misses c) mod 4294967296 = hits c + misses c - 4294967296) as E.
    { replace (hits c + misses c)
        with (hits c + misses c - 4294967296 + 1 * 4294967296) at 1 by lia.
      rewrite N.Div0.mod_add. apply N.mod_small. lia. }
    rewrite E. case_decide as Hpos.
    + destruct (quotient_facts (hits c) (hits c + misses c - 4294967296) Hpos)
        as (Hz & Hnn & _ & Hgt).
      split_and!; [|done|intros ?; lia|].
      * rewrite Hz. split; [by left|]. intros [?|?]; [done|lia].
      * intros _. split_and!; [done|done|]. apply Hgt. lia.
    + split_and!; [|done|intros ?; lia|intros ?; lia].
      split; [intros _; right; lia|done].
Qed.

(** X9. After [resetStats], and as long as fewer than 2^32 calls of [get]
    follow, [getHitMissStats] is the number of [get]s that returned and the
    number that threw, and [getHitRatio] is [0.0] if there was no [get] and
    else the share of the [get]s that returned.  [resetStats] changes
    neither the contents nor [size] nor [capacity]. *)
Theorem statistics_after_reset c ops :
  WF c → N.of_nat (length (List.filter is_get ops)) < Unsigned.modulus →
  ∃ rs c', calls ops (resetStats c) = Some (rs, c') ∧
    getHitMissStats c' = (count_hits rs, count_misses rs) ∧
    getHitRatio c' =
      (if decide (count_hits rs + count_misses rs = 0) then 0%Q
       else (inject_Z (Z.of_N (count_hits rs)) /
             inject_Z (Z.of_N (count_hits rs + count_misses rs)))%Q) ∧
    (0 <= getHitRatio c')%Q ∧ (getHitRatio c' <= 1)%Q ∧
    count_hits rs + count_misses rs = N.of_nat (length (List.filter is_get ops)) ∧
    entries (resetStats c) = entries c ∧
    getSize (resetStats c) = getSize c ∧
    getCapacity (resetStats c) = getCapacity c ∧
    getHitMissStats (resetStats c) = (0, 0).
Proof.
  intros Hwf Hlen.
  assert (WF (resetStats c)) as Hwf0.
  { by eapply WF_same; [| | | |exact Hwf]. }
  destruct (calls_stats (resetStats c) ops Hwf0)
    as (rs & c' & Hcalls & Hwf' & _ & Hh & Hm & Hcnt).
  { unfold Unsigned.in_range. simpl. rewrite UnsignedFacts.modulus_eq. lia. }
  { unfold Unsigned.in_range. simpl. rewrite UnsignedFacts.modulus_eq. lia. }
  simpl in Hh, Hm. rewrite N.add_0_l in Hh, Hm.
  assert (count_hits rs + count_misses rs < Unsigned.modulus) as Hsmall.
  { by rewrite Hcnt. }
  rewrite N.mod_small in Hh by lia. rewrite N.mod_small in Hm by lia.
  assert (getHitRatio c' =
            (if decide (count_hits rs + count_misses rs = 0) then 0%Q
             else (inject_Z (Z.of_N (count_hits rs)) /
                   inject_Z (Z.of_N (count_hits rs + count_misses rs)))%Q)) as Hq.
  { unfold getHitRatio. rewrite Hh, Hm, (N.mod_small _ _ Hsmall).
    repeat case_decide; try done; lia. }
  exists rs, c'. split_and!; try done.
  - unfold getHitMissStats. by rewrite Hh, Hm.
  - rewrite Hq. case_decide as Hz; [done|].
    apply (quotient_facts (count_hits rs) (count_hits rs + count_misses rs)). lia.
  - rewrite Hq. case_decide as Hz; [done|].
    apply (quotient_facts (count_hits rs) (count_hits rs + count_misses rs)); lia.
Qed.


(** X10. The loop of [main] that prints the cache: over the candidate keys
    [ks], with [n] items printed so far, it prints the keys the cache
    holds, in the order of [ks], each with its stored value, and stops after
    the tenth item; the [catch] branch is never taken.  The contents,
    [size] and [misses] of the cache are as before; [hits] has grown by
    the number of lines printed. *)
Theorem print_contents_lists_present c ks n :
  WF c → Unsigned.in_range (hits c) →
  ∃ out c', print_contents ks n c = Some (out, c') ∧
    out = take (10 - n) (omap (λ k, Printed k <$> contents c !! k) ks) ∧
    WF c' ∧ contents c' = contents c ∧
    hits c' = (hits c + N.of_nat (length out)) mod Unsigned.modulus ∧
    misses c' = misses c ∧ size c' = size c ∧ capacity c' = capacity c.
Proof.
  intros Hwf Hr. revert n c Hwf Hr.
  induction ks as [|k ks IH]; intros n c Hwf Hr.
  - exists [], c. simpl. rewrite take_nil, N.add_0_r, N.mod_small by done. done.
  - simpl. case_decide as Hn.
    + destruct (map c !! k) as [x|] eqn:Hm.
      * rewrite bool_decide_eq_true_2 by done.
        destruct (get_contents c k Hwf)
          as (c1 & Hget & Hwf1 & Hc1 & Hsz1 & Hcap1 & Hh1 & Hm1).
        assert (is_Some (contents c !! k)) as [v Hk].
        { apply (contents_is_Some _ _ Hwf). eauto. }
        rewrite Hk in Hget, Hh1, Hm1 |- *. simpl in Hget. rewrite Hget. simpl.
        assert (Unsigned.in_range (hits c1)) as Hr1.
        { rewrite Hh1. apply UnsignedFacts.incr_in_range. }
        destruct (IH (S n) c1 Hwf1 Hr1)
          as (out & c' & -> & Hout & Hwf' & Hc' & Hh' & Hm' & Hsz' & Hcap').
        exists (Printed k v :: out), c'. simpl.
        replace (10 - n)%nat with (S (10 - S n)) by lia. simpl.
        split_and!; try done; try congruence.
        { rewrite Hout, Hc1. done. }
        rewrite Hh', Hh1, incr_add_mod. f_equal. lia.
      * rewrite bool_decide_eq_false_2 by (intros H; by apply H).
        assert (contents c !! k = None) as Hk.
        { apply (contents_None _ _ Hwf), (WF_absent _ _ Hwf), Hm. }
        rewrite Hk. simpl. apply IH; done.
    + exists [], c. replace (10 - n)%nat with 0%nat by lia. simpl.
      rewrite N.add_0_r, N.mod_small by done. done.
Qed.

(** X11. The check at the end of [main]: on any cache that satisfies the
    class invariant, [put] of an entry followed by [get] of its key gives
    the value back, so the verdict is [PASSED]; the entry is then the
    most recently used one. *)
Theorem post_verification_passes `{!EqDecision V} c (testKey : K) (testValue : V) :
  Inv c →
  ∃ c' rest, post_verification testKey testValue c = Some (PASSED, c') ∧
    WF c' ∧ entries c' = (testKey, testValue) :: rest ∧
    contents c' !! testKey = Some testValue ∧
    hits c' = Unsigned.incr (hits c) ∧ misses c' = misses c.
Proof.
  intros HI. pose proof (Inv_WF _ HI) as Hwf.
  destruct (put_front c testKey testValue HI) as (c1 & rest & Hput & Hwf1 & Hes1).
  assert (hits c1 = hits c ∧ misses c1 = misses c) as [Hh1 Hm1].
  { destruct (call_stats c (Put testKey testValue) Hwf)
      as (r & c1' & Hcall & _ & _ & Hh & Hm & Hg & _).
    simpl in Hcall. rewrite Hput in Hcall. simpl in Hcall.
    injection Hcall as <- <-. done. }
  assert (is_Some (map c1 !! testKey)) as [x Hx].
  { apply (WF_present _ _ Hwf1). unfold keys. rewrite Hes1. by left. }
  destruct (get_hit_spec c1 testKey x Hwf1 Hx)
    as (es1 & v & es2 & c' & Hes & Hget & Hwf' & Hes' & _ & _ & _ & Hh & Hmi).
  assert (es1 = [] ∧ v = testValue ∧ es2 = rest) as (-> & -> & ->).
  { pose proof (WF_NoDup_keys _ Hwf1) as Hnd. unfold keys in Hnd.
    rewrite Hes1 in Hes. rewrite Hes1 in Hnd. destruct es1 as [|[k0 v0] es1].
    - simpl in Hes. by injection Hes as <- <-.
    - simpl in Hes. injection Hes as -> -> ->. simpl in Hnd.
      apply NoDup_cons in Hnd as [Hnin _]. destruct Hnin.
      rewrite fmap_app. apply elem_of_app. right. by left. }
  exists c', rest. unfold post_verification. rewrite Hput. simpl. rewrite Hget. simpl.
  rewrite decide_True by done. split_and!; try done; try congruence.
  apply (contents_lookup _ _ _ Hwf'). rewrite Hes'. by left.
Qed.

Lemma get_present_Inv c k :
  Inv c → k ∈ keys c →
  ∃ v c' rest, get k c = Some (Returned v, c') ∧ Inv c' ∧
    entries c' = (k, v) :: rest ∧ length (entries c') = length (entries c) ∧
    contents c' = contents c ∧ size c' = size c ∧ capacity c' = capacity c.
Proof.
  intros (Hwf & Hsz & Hle & Hpos & Hr) Hin.
  apply (WF_present _ _ Hwf) in Hin as [x Hm].
  destruct (get_hit_spec c k x Hwf Hm)
    as (es1 & v & es2 & c' & Hes & Hget & Hwf' & Hes' & _ & Hsz' & Hc & _).
  assert (length (entries c') = length (entries c)) as Hlen.
  { rewrite Hes, Hes'. simpl. rewrite !length_app. simpl. lia. }
  exists v, c', (es1 ++ es2). split_and!; try done.
  - split_and!; [done |by rewrite Hsz', Hlen|by rewrite Hsz', Hc|by rewrite Hc..].
  - rewrite (contents_moved c c' es1 es2 k v v Hwf Hwf' Hes Hes').
    apply insert_id, (contents_lookup _ _ _ Hwf). rewrite Hes.
    apply elem_of_app. right. by left.
Qed.

(** X12. A key that [get] has just read survives the next [put]: after
    [get k] and [put k' v'] the value under [k] is as before (or [v'] if
    [k' = k]).  The one exception is a cache of capacity 1, where the
    [put] of another key evicts [k]. *)
Theorem recently_read_survives c k k' v' :
  Inv c → k ∈ keys c →
  ∃ c', run [Get k; Put k' v'] c = Some c' ∧ WF c' ∧
    contents c' !! k =
      if decide (k' = k) then Some v'
      else if decide (capacity c = 1) then None
      else contents c !! k.
Proof.
  intros HI Hin.
  destruct (get_present_Inv c k HI Hin)
    as (v & c1 & rest & Hget & HI1 & Hes1 & Hlen1 & Hc1 & Hsz1 & Hcap1).
  pose proof HI1 as (Hwf1 & Hsz & Hle & Hpos & Hr).
  destruct (put_contents c1 k' v' HI1) as (c' & Hput & Hwf' & Hcase).
  exists c'. split_and!; [|done|].
  { simpl. rewrite Hget. simpl. by rewrite Hput. }
  assert (contents c1 !! k = Some v) as Hk.
  { apply (contents_lookup _ _ _ Hwf1). rewrite Hes1. by left. }
  pose proof (WF_NoDup_keys _ Hwf1) as Hnd. unfold keys in Hnd.
  rewrite Hes1 in Hnd. simpl in Hnd. apply NoDup_cons in Hnd as [Hnin _].
  rewrite Hes1 in Hsz. simpl in Hsz.
  destruct (decide (k' = k)) as [->|Hne].
  { rewrite decide_False in Hcase by (rewrite Hk; by intros [? _]).
    by rewrite Hcase, lookup_insert_eq. }
  rewrite <-Hc1, <-Hcap1.
  case_decide as Hd.
  - destruct Hd as [_ Hov]. destruct Hcase as (old & Hlast & _ & ->).
    assert (size c1 < Unsigned.UINT_MAX) as Hlt.
    { destruct (decide (size c1 < Unsigned.UINT_MAX)) as [|Hge]; [done|].
      assert (size c1 = Unsigned.UINT_MAX) as E.
      { unfold Unsigned.in_range in Hr. rewrite UnsignedFacts.modulus_eq in Hr.
        rewrite UnsignedFacts.UINT_MAX_eq in *. lia. }
      rewrite E, UnsignedFacts.incr_max in Hov. lia. }
    rewrite UnsignedFacts.incr_small in Hov by done.
    unfold keys in Hlast. rewrite Hes1 in Hlast. simpl in Hlast.
    destruct (decide (capacity c1 = 1)) as [Hone|Hmore].
    + assert (rest = []) as -> by (destruct rest; [done|simpl in Hsz; lia]).
      simpl in Hlast. injection Hlast as <-. by rewrite lookup_delete_eq.
    + assert (old ≠ k) as Hold.
      { destruct rest as [|e rest']; [simpl in Hsz; lia|].
        intros ->. destruct Hnin.
        apply last_Some in Hlast as [pre Hpre].
        destruct pre as [|p pre]; simpl in Hpre.
        - discriminate Hpre.
        - injection Hpre as _ Hpre. simpl. rewrite Hpre.
          apply elem_of_app. right. by left. }
      rewrite lookup_delete_ne, lookup_insert_ne by done. done.
  - rewrite Hcase, lookup_insert_ne by done.
    destruct (decide (capacity c1 = 1)) as [Hone|Hmore]; [|done].
    destruct Hd. split.
    + assert (rest = []) as -> by (destruct rest; [done|simpl in Hsz; lia]).
      apply (contents_None _ _ Hwf1). unfold keys. rewrite Hes1. simpl.
      by intros ?%list_elem_of_singleton.
    + assert (size c1 = 1) as -> by lia. rewrite Hone. reflexivity.
Qed.

(** X13. Distinct new keys, put one after the other into a cache whose
    capacity is below [UINT_MAX], leave the newest entries: the recency list
    is the new entries, newest first, followed by the old ones, cut off at
    [capacity]; [getSize] is the smaller of [capacity] and the number of
    entries there would be without eviction. *)
Theorem puts_keep_newest (kvs : list (K * V)) c :
  Inv c → capacity c < Unsigned.UINT_MAX →
  NoDup (kvs.*1) → (∀ k, k ∈ kvs.*1 → k ∉ keys c) →
  ∃ c', run (puts kvs) c = Some c' ∧
    entries c' = take (N.to_nat (capacity c)) (rev kvs ++ entries c) ∧
    getSize c' = N.min (capacity c) (N.of_nat (length kvs) + getSize c) ∧
    getCapacity c' = getCapacity c.
Proof.
  intros HI Hmax Hnd Hnew.
  destruct (puts_Inv kvs c HI Hmax Hnd Hnew) as (c' & Hrun & HI' & Hcap & Hes).
  exists c'. split_and!; try done.
  destruct HI' as (_ & Hsz' & _). destruct HI as (_ & Hsz & _).
  unfold getSize. rewrite Hsz', Hes, length_take, length_app, length_rev, Hsz. lia.
Qed.

(** X14. [put] of a new key followed by [remove] of it: when the [put] does
    not evict, the recency list, the contents and [size] are as before; when
    it does, the least recently used entry is gone and [size] is one less.
    The counters are unchanged in both cases. *)
Theorem put_then_remove c k v :
  Inv c → k ∉ keys c →
  ∃ c', run [Put k v; Remove k] c = Some c' ∧ WF c' ∧
    entries c' =
      (if decide (capacity c < Unsigned.incr (size c))
       then removelast (entries c) else entries c) ∧
    size c' =
      (if decide (capacity c < Unsigned.incr (size c))
       then size c - 1 else size c) ∧
    capacity c' = capacity c ∧ hits c' = hits c ∧ misses c' = misses c.
Proof.
  intros HI Hnk. pose proof HI as (Hwf & Hsz & Hle & Hpos & Hr).
  assert (map c !! k = None) as Hm by (by apply (WF_absent _ _ Hwf)).
  assert (Unsigned.in_range (size c)) as Hrs.
  { unfold Unsigned.in_range in *. lia. }
  destruct (put_new_spec c k v Hwf Hm) as (c1 & Hput & Hwf1 & Hcap1 & Hh1 & Hm1 & Hcase).
  assert (∃ rest, entries c1 = (k, v) :: rest ∧
            rest = (if decide (capacity c < Unsigned.incr (size c))
                    then removelast (entries c) else entries c))
    as (rest & Hes1 & Hrest).
  { case_decide as Hov.
    - destruct Hcase as [Hes1 _].
      destruct (entries c) as [|e es] eqn:Hes.
      + simpl in Hsz. rewrite Hsz in Hov. 
        rewrite UnsignedFacts.incr_small in Hov
          by (rewrite UnsignedFacts.UINT_MAX_eq; lia). lia.
      + exists (removelast (e :: es)). by rewrite Hes1.
    - destruct Hcase as [Hes1 _]. by exists (entries c). }
  assert (is_Some (map c1 !! k)) as [x Hx].
  { apply (WF_present _ _ Hwf1). unfold keys. rewrite Hes1. by left. }
  destruct (remove_hit_spec c1 k x Hwf1 Hx)
    as (es1 & v1 & es2 & c' & Hes & Hrem & Hwf' & Hes' & _ & Hsz' & Hcap' & Hh' & Hm').
  assert (es1 = [] ∧ es2 = rest) as (-> & ->).
  { pose proof (WF_NoDup_keys _ Hwf1) as Hnd. unfold keys in Hnd.
    rewrite Hes1 in Hes. rewrite Hes1 in Hnd. destruct es1 as [|[k0 v0] es1].
    - simpl in Hes. by injection Hes as <- <-.
    - simpl in Hes. injection Hes as -> -> ->. simpl in Hnd.
      apply NoDup_cons in Hnd as [Hnin _]. destruct Hnin.
      rewrite fmap_app. apply elem_of_app. right. by left. }
  exists c'. split_and!; try congruence.
  { simpl. rewrite Hput. simpl. by rewrite Hrem. }
  { by rewrite Hes', <-Hrest. }
  rewrite Hsz'. clear Hrest. case_decide as Hov.
  - destruct Hcase as [_ ->].
    assert (size c < Unsigned.UINT_MAX) as Hlt.
    { destruct (decide (size c < Unsigned.UINT_MAX)) as [|Hge]; [done|].
      assert (size c = Unsigned.UINT_MAX) as E.
      { unfold Unsigned.in_range in Hrs. rewrite UnsignedFacts.modulus_eq in Hrs.
        rewrite UnsignedFacts.UINT_MAX_eq in *. lia. }
      rewrite E, UnsignedFacts.incr_max in Hov. lia. }
    rewrite UnsignedFacts.decr_incr by done.
    rewrite UnsignedFacts.incr_small in Hov by done.
    apply UnsignedFacts.decr_pos; [lia|done].
  - destruct Hcase as [_ ->].
    destruct (decide (size c < Unsigned.UINT_MAX)) as [|Hge].
    + by apply UnsignedFacts.decr_incr.
    + assert (size c = Unsigned.UINT_MAX) as E.
      { unfold Unsigned.in_range in Hrs. rewrite UnsignedFacts.modulus_eq in Hrs.
        rewrite UnsignedFacts.UINT_MAX_eq in *. lia. }
      rewrite E. reflexivity.
Qed.

End More.

(** ** The theorems above at concrete caches *)

Lemma reachable_states_witness :
  Unsigned.in_range 2 ∧
  ∃ c0, new_cache 2 = Some (Returned c0) ∧
    ∃ c, run [Put "a" 1; Put "b" 2; Get "a"; Put "c" 3; Remove "a"]%string c0 = Some c ∧
         capacity c = 2 ∧ WF c ∧
         dom (map c) = list_to_set (keys c) ∧ NoDup (keys c) ∧
         base.size (map c) = length (keys c) ∧
         NoDup (order c) ∧ (∀ l, l ∈ order c ↔ ∃ k, map c !! k = Some l) ∧
         size c ≤ capacity c ∧
         size c = N.of_nat (length (entries c)) mod Unsigned.modulus ∧
         (2 < Unsigned.UINT_MAX →
            size c = N.of_nat (length (entries c)) ∧ Inv c).
Proof.
  assert (Unsigned.in_range 2) as Hr by reflexivity.
  assert (constructed (new_cache 2) ≫= (λ c0, Some (size c0)) = Some 0) as H
    by (vm_compute; reflexivity).
  apply bind_Some in H as (c0 & Hnew & _). apply constructed_Some in Hnew.
  split; [exact Hr|]. exists c0. split; [exact Hnew|].
  exact (reachable_states ""%string 0 2 _ c0 Hr Hnew).
Defined.

Lemma removeNode_unlinks_witness :
  ∃ c, constructed (new_cache 3) ≫= run [Put "a" 1; Put "b" 2; Put "c" 3]%string = Some c ∧
       chain c ([5%positive] ++ 4%positive :: [3%positive]) ∧
       ∃ c', removeNode 4%positive c = Some c' ∧
             order c' = [5%positive; 3%positive] ∧
             nextf (nodes c') 4%positive = None ∧ prevf (nodes c') 4%positive = None ∧
             size c' = size c.
Proof.
  assert ((c ← constructed (new_cache 3) ≫= run [Put "a" 1; Put "b" 2; Put "c" 3]%string;
           Some (chainb c [5%positive; 4%positive; 3%positive])) = Some true) as H
    by (vm_compute; reflexivity).
  apply bind_Some in H as (c & Hrun & H). injection H as Hch.
  apply chainb_spec in Hch.
  exists c. split; [exact Hrun|]. split; [exact Hch|].
  destruct (removeNode_unlinks c [5%positive] 4%positive [3%positive] Hch)
    as (c' & Hrm & _ & Hord & _ & Hn & Hp & _ & Hsz & _).
  exists c'. repeat split; assumption.
Defined.

Lemma addToFront_links_first_witness :
  ∃ c, constructed (new_cache 3) ≫= run [Put "a" 1; Put "b" 2; Remove "a"]%string = Some c ∧
       chain c [4%positive] ∧
       (3%positive ∉ head c :: [4%positive] ++ [tail c]) ∧
       is_Some (nodes c !! 3%positive) ∧
       ∃ c', addToFront 3%positive c = Some c' ∧
             order c' = [3%positive; 4%positive] ∧
             nextf (nodes c') (head c) = Some 3%positive ∧
             prevf (nodes c') 3%positive = Some (head c).
Proof.
  assert ((c ← constructed (new_cache 3) ≫= run [Put "a" 1; Put "b" 2; Remove "a"]%string;
           Some (chainb c [4%positive],
                 bool_decide (3%positive ∉ head c :: [4%positive] ++ [tail c]),
                 bool_decide (is_Some (nodes c !! 3%positive))))
          = Some (true, true, true)) as H
    by (vm_compute; reflexivity).
  apply bind_Some in H as (c & Hrun & H). injection H as Hch Hx Hn.
  apply chainb_spec in Hch. apply bool_decide_eq_true in Hx, Hn.
  exists c. split; [exact Hrun|]. split; [exact Hch|]. split; [exact Hx|].
  split; [exact Hn|].
  destruct (addToFront_links_first c 3%positive [4%positive] Hch Hx Hn)
    as (c' & Hadd & _ & Hord & Hnx & Hpv & _).
  exists c'. repeat split; assumption.
Defined.

Lemma moveToFront_reorders_witness :
  ∃ c, constructed (new_cache 3) ≫= run [Put "a" 1; Put "b" 2; Put "c" 3]%string = Some c ∧
       chain c ([5%positive; 4%positive] ++ 3%positive :: []) ∧
       ∃ c', moveToFront 3%positive c = Some c' ∧
             order c' = [3%positive; 5%positive; 4%positive] ∧
             (∀ l, entry_at (nodes c') l = entry_at (nodes c) l) ∧
             map c' = map c.
Proof.
  assert ((c ← constructed (new_cache 3) ≫= run [Put "a" 1; Put "b" 2; Put "c" 3]%string;
           Some (chainb c [5%positive; 4%positive; 3%positive])) = Some true) as H
    by (vm_compute; reflexivity).
  apply bind_Some in H as (c & Hrun & H). injection H as Hch.
  apply chainb_spec in Hch.
  exists c. split; [exact Hrun|]. split; [exact Hch|].
  destruct (moveToFront_reorders c [5%positive; 4%positive] 3%positive [] Hch)
    as (c' & Hmv & _ & Hord & Hpay & Hmap & _).
  exists c'. repeat split; assumption.
Defined.

Lemma evictLRU_guards_witness :
  ∃ c, constructed (new_cache 3) ≫= run [Put "a" 1; Put "b" 2; Put "c" 3]%string = Some c ∧
       WF c ∧ size c ≠ 0 ∧
       entries c = [("c", 3); ("b", 2)]%string ++ [("a", 1)]%string ∧
       ∃ c', evictLRU c = Some c' ∧ WF c' ∧
             entries c' = [("c", 3); ("b", 2)]%string ∧
             map c' = delete "a"%string (map c) ∧
             size c' = Unsigned.decr (size c).
Proof.
  assert ((c ← constructed (new_cache 3) ≫= run [Put "a" 1; Put "b" 2; Put "c" 3]%string;
           Some (WFb c, bool_decide (size c ≠ 0), entries c))
          = Some (true, true, [("c", 3); ("b", 2); ("a", 1)]%string)) as H
    by (vm_compute; reflexivity).
  apply bind_Some in H as (c & Hrun & H). injection H as Hwf Hsz Hes.
  apply WFb_spec in Hwf. apply bool_decide_eq_true in Hsz.
  exists c. split; [exact Hrun|]. split; [exact Hwf|]. split; [exact Hsz|].
  split; [exact Hes|].
  destruct (proj2 (proj2 (evictLRU_guards c)) Hwf Hsz
              [("c", 3); ("b", 2)]%string ("a", 1)%string Hes)
    as (c' & Hev & Hwf' & Hes' & Hmap & _ & Hsz' & _).
  exists c'. repeat split; assumption.
Defined.

Lemma cache_is_a_dictionary_witness :
  ∃ c, constructed (new_cache 3) ≫= run [Put "a" 1; Put "b" 2; Put "c" 3]%string = Some c ∧
       Inv c ∧
       ∃ r c', call (Put "d"%string 4) c = Some (r, c') ∧ WF c' ∧
         r = PutDone ∧
         if decide (contents c !! "d"%string = None ∧ capacity c < Unsigned.incr (size c))
         then ∃ old, last (keys c) = Some old ∧ old ≠ "d"%string ∧
                     contents c' = delete old (<["d"%string := 4]> (contents c))
         else contents c' = <["d"%string := 4]> (contents c).
Proof.
  assert ((c ← constructed (new_cache 3) ≫= run [Put "a" 1; Put "b" 2; Put "c" 3]%string;
           Some (Invb c)) = Some true) as H
    by (vm_compute; reflexivity).
  apply bind_Some in H as (c & Hrun & H). injection H as HI.
  apply Invb_spec in HI.
  exists c. split; [exact Hrun|]. split; [exact HI|].
  exact (cache_is_a_dictionary c (Put "d"%string 4) HI).
Defined.

Lemma statistics_count_gets_witness :
  ∃ c, constructed (new_cache 3) ≫= run [Put "a" 1; Get "a"; Get "b"]%string = Some c ∧
       WF c ∧ Unsigned.in_range (hits c) ∧ Unsigned.in_range (misses c) ∧
       ∃ rs c', calls [Get "a"; Put "b" 2; Get "c"; Get "b"]%string c = Some (rs, c') ∧
         length rs = 4%nat ∧
         getHitMissStats c' =
           (((getHitMissStats c).1 + count_hits rs) mod Unsigned.modulus,
            ((getHitMissStats c).2 + count_misses rs) mod Unsigned.modulus) ∧
         count_hits rs + count_misses rs = 3.
Proof.
  assert ((c ← constructed (new_cache 3) ≫= run [Put "a" 1; Get "a"; Get "b"]%string;
           Some (WFb c, bool_decide (Unsigned.in_range (hits c)),
                 bool_decide (Unsigned.in_range (misses c))))
          = Some (true, true, true)) as H
    by (vm_compute; reflexivity).
  apply bind_Some in H as (c & Hrun & H). injection H as Hwf Hh Hm.
  apply WFb_spec in Hwf. apply bool_decide_eq_true in Hh, Hm.
  exists c. split; [exact Hrun|]. split; [exact Hwf|]. split; [exact Hh|].
  split; [exact Hm|].
  exact (statistics_count_gets c [Get "a"; Put "b" 2; Get "c"; Get "b"]%string Hwf Hh Hm).
Defined.

Lemma getHitRatio_cases_witness :
  ∃ c, constructed (new_cache 3) ≫= run [Put "a" 1; Get "a"; Get "b"; Get "a"]%string = Some c ∧
       Unsigned.in_range (hits c) ∧ Unsigned.in_range (misses c) ∧
       getHitRatio c = (2 # 3)%Q ∧
       ((getHitRatio c == 0)%Q ↔
          hits c = 0 ∨ hits c + misses c = Unsigned.modulus) ∧
       (0 <= getHitRatio c)%Q ∧
       (0 < hits c + misses c < Unsigned.modulus →
          getHitRatio c =
            (inject_Z (Z.of_N (hits c)) / inject_Z (Z.of_N (hits c + misses c)))%Q ∧
          (getHitRatio c <= 1)%Q) ∧
       (Unsigned.modulus < hits c + misses c →
          getHitRatio c =
            (inject_Z (Z.of_N (hits c)) /
             inject_Z (Z.of_N (hits c + misses c - Unsigned.modulus)))%Q ∧
          0 < hits c + misses c - Unsigned.modulus ∧
          (1 < getHitRatio c)%Q).
Proof.
  assert ((c ← constructed (new_cache 3) ≫= run [Put "a" 1; Get "a"; Get "b"; Get "a"]%string;
           Some (bool_decide (Unsigned.in_range (hits c)),
                 bool_decide (Unsigned.in_range (misses c)), getHitRatio c))
          = Some (true, true, (2 # 3)%Q)) as H
    by (vm_compute; reflexivity).
  apply bind_Some in H as (c & Hrun & H). injection H as Hh Hm Hq.
  apply bool_decide_eq_true in Hh, Hm.
  exists c. split; [exact Hrun|]. split; [exact Hh|]. split; [exact Hm|].
  split; [exact Hq|].
  exact (getHitRatio_cases c Hh Hm).
Defined.

Lemma statistics_after_reset_witness :
  ∃ c, constructed (new_cache 3) ≫= run [Put "a" 1; Get "a"; Get "b"]%string = Some c ∧
       WF c ∧
       N.of_nat (length (List.filter is_get [Get "b"; Put "b" 2; Get "b"]%string))
         < Unsigned.modulus ∧
       ∃ rs c', calls [Get "b"; Put "b" 2; Get "b"]%string (resetStats c) = Some (rs, c') ∧
         getHitMissStats c' = (count_hits rs, count_misses rs) ∧
         getHitRatio c' =
           (if decide (count_hits rs + count_misses rs = 0) then 0%Q
            else (inject_Z (Z.of_N (count_hits rs)) /
                  inject_Z (Z.of_N (count_hits rs + count_misses rs)))%Q) ∧
         count_hits rs + count_misses rs = 2 ∧
         getHitMissStats (resetStats c) = (0, 0).
Proof.
  assert ((c ← constructed (new_cache 3) ≫= run [Put "a" 1; Get "a"; Get "b"]%string;
           Some (WFb c)) = Some true) as H
    by (vm_compute; reflexivity).
  apply bind_Some in H as (c & Hrun & H). injection H as Hwf.
  apply WFb_spec in Hwf.
  assert (N.of_nat (length (List.filter is_get
            [Get "b"; Put "b" 2; Get "b"]%string : list (@Op string N)))
          < Unsigned.modulus) as Hlen by reflexivity.
  exists c. split; [exact Hrun|]. split; [exact Hwf|]. split; [exact Hlen|].
  destruct (statistics_after_reset c [Get "b"; Put "b" 2; Get "b"]%string Hwf Hlen)
    as (rs & c' & Hc & Hs & Hq & _ & _ & Hcnt & _ & _ & _ & H0).
  exists rs, c'. repeat split; assumption.
Defined.

Lemma print_contents_lists_present_witness :
  ∃ c, constructed (new_cache 10)
         ≫= run [Put (test_key 7) 70; Put (test_key 2) 20; Put (test_key 35) 350] = Some c ∧
       WF c ∧ Unsigned.in_range (hits c) ∧
       ∃ out c', print_contents test_keys 0 c = Some (out, c') ∧
         out = take (10 - 0) (omap (λ k, Printed k <$> contents c !! k) test_keys) ∧
         WF c' ∧ contents c' = contents c ∧
         hits c' = (hits c + N.of_nat (length out)) mod Unsigned.modulus ∧
         misses c' = misses c ∧ size c' = size c ∧ capacity c' = capacity c.
Proof.
  assert ((c ← constructed (new_cache 10)
             ≫= run [Put (test_key 7) 70; Put (test_key 2) 20; Put (test_key 35) 350];
           Some (WFb c, bool_decide (Unsigned.in_range (hits c))))
          = Some (true, true)) as H
    by (vm_compute; reflexivity).
  apply bind_Some in H as (c & Hrun & H). injection H as Hwf Hh.
  apply WFb_spec in Hwf. apply bool_decide_eq_true in Hh.
  exists c. split; [exact Hrun|]. split; [exact Hwf|]. split; [exact Hh|].
  exact (print_contents_lists_present c test_keys 0 Hwf Hh).
Defined.

Lemma post_verification_passes_witness :
  ∃ c, constructed (new_cache 10) ≫= run [Put (test_key 7) 70; Get (test_key 3)] = Some c ∧
       Inv c ∧
       ∃ c' rest, post_verification "test_verification_key"%string 12345 c = Some (PASSED, c') ∧
         WF c' ∧ entries c' = ("test_verification_key"%string, 12345) :: rest ∧
         contents c' !! "test_verification_key"%string = Some 12345 ∧
         hits c' = Unsigned.incr (hits c) ∧ misses c' = misses c.
Proof.
  assert ((c ← constructed (new_cache 10) ≫= run [Put (test_key 7) 70; Get (test_key 3)];
           Some (Invb c)) = Some true) as H
    by (vm_compute; reflexivity).
  apply bind_Some in H as (c & Hrun & H). injection H as HI.
  apply Invb_spec in HI.
  exists c. split; [exact Hrun|]. split; [exact HI|].
  exact (post_verification_passes c "test_verification_key"%string 12345 HI).
Defined.

Lemma recently_read_survives_witness :
  ∃ c, constructed (new_cache 2) ≫= run [Put "a" 1; Put "b" 2]%string = Some c ∧
       Inv c ∧ "a"%string ∈ keys c ∧
       ∃ c', run [Get "a"; Put "c" 3]%string c = Some c' ∧ WF c' ∧
         contents c' !! "a"%string =
           if decide ("c"%string = "a"%string) then Some 3
           else if decide (capacity c = 1) then None
           else contents c !! "a"%string.
Proof.
  assert ((c ← constructed (new_cache 2) ≫= run [Put "a" 1; Put "b" 2]%string;
           Some (Invb c, bool_decide ("a"%string ∈ keys c))) = Some (true, true)) as H
    by (vm_compute; reflexivity).
  apply bind_Some in H as (c & Hrun & H). injection H as HI Hin.
  apply Invb_spec in HI. apply bool_decide_eq_true in Hin.
  exists c. split; [exact Hrun|]. split; [exact HI|]. split; [exact Hin|].
  exact (recently_read_survives c "a"%string "c"%string 3 HI Hin).
Defined.

Lemma puts_keep_newest_witness :
  ∃ c, constructed (new_cache 3) ≫= run [Put "a" 1; Put "b" 2]%string = Some c ∧
       Inv c ∧ capacity c < Unsigned.UINT_MAX ∧
       NoDup ([("c", 3); ("d", 4)]%string.*1) ∧
       (∀ k, k ∈ [("c", 3); ("d", 4)]%string.*1 → k ∉ keys c) ∧
       ∃ c', run (puts [("c", 3); ("d", 4)]%string) c = Some c' ∧
         entries c' =
           take (N.to_nat (capacity c)) (rev [("c", 3); ("d", 4)]%string ++ entries c) ∧
         getSize c' = N.min (capacity c) (N.of_nat 2 + getSize c) ∧
         getCapacity c' = getCapacity c.
Proof.
  assert ((c ← constructed (new_cache 3) ≫= run [Put "a" 1; Put "b" 2]%string;
           Some (Invb c, bool_decide (capacity c < Unsigned.UINT_MAX),
                 bool_decide (Forall (λ k, k ∉ keys c) ([("c", 3); ("d", 4)]%string.*1))))
          = Some (true, true, true)) as H
    by (vm_compute; reflexivity).
  apply bind_Some in H as (c & Hrun & H). injection H as HI Hcap Hnew.
  apply Invb_spec in HI. apply bool_decide_eq_true in Hcap, Hnew.
  assert (NoDup ([("c", 3); ("d", 4)]%string.*1)) as Hnd.
  { apply (bool_decide_unpack _). vm_compute. exact I. }
  assert (∀ k, k ∈ [("c", 3); ("d", 4)]%string.*1 → k ∉ keys c) as Hnew'.
  { apply Forall_forall, Hnew. }
  exists c. split; [exact Hrun|]. split; [exact HI|]. split; [exact Hcap|].
  split; [exact Hnd|]. split; [exact Hnew'|].
  exact (puts_keep_newest [("c", 3); ("d", 4)]%string c HI Hcap Hnd Hnew').
Defined.

Lemma put_then_remove_witness :
  ∃ c, constructed (new_cache 2) ≫= run [Put "a" 1; Put "b" 2]%string = Some c ∧
       Inv c ∧ ("c"%string ∉ keys c) ∧
       ∃ c', run [Put "c" 3; Remove "c"]%string c = Some c' ∧ WF c' ∧
         entries c' =
           (if decide (capacity c < Unsigned.incr (size c))
            then removelast (entries c) else entries c) ∧
         size c' =
           (if decide (capacity c < Unsigned.incr (size c))
            then size c - 1 else size c) ∧
         capacity c' = capacity c ∧ hits c' = hits c ∧ misses c' = misses c.
Proof.
  assert ((c ← constructed (new_cache 2) ≫= run [Put "a" 1; Put "b" 2]%string;
           Some (Invb c, bool_decide ("c"%string ∉ keys c))) = Some (true, true)) as H
    by (vm_compute; reflexivity).
  apply bind_Some in H as (c & Hrun & H). injection H as HI Hin.
  apply Invb_spec in HI. apply bool_decide_eq_true in Hin.
  exists c. split; [exact Hrun|]. split; [exact HI|]. split; [exact Hin|].
  exact (put_then_remove c "c"%string 3 HI Hin).
Defined.
